(** * Critical-path analysis of a digital circuit

    A shallow embedding of [critical_path_tool.py] (class [DigitalCircuit])
    together with the properties stated about it.

    - Python floats are IEEE binary64 numbers: they are Rocq's primitive
      [float]s, [+] is [PrimFloat.add], [>] is [PrimFloat.ltb] with its
      arguments swapped and [==] is [PrimFloat.eqb].  The integer [0] that
      [find_critical_path] stores for INPUT nodes is only ever added to or
      compared with floats, where it behaves as [0.0]; it is the float
      zero here.
    - Python dicts that are only indexed ([delays], [node_types],
      [distances], [predecessors], networkx's [indegree_map]) are [gmap]s;
      a missing key raises [KeyError].
    - [nx.DiGraph] and [nx.topological_sort] are networkx's.  A digraph
      keeps nodes and adjacency in insertion order: it is a list of nodes
      and a list of edges.  [topological_sort] follows the library's
      implementation, Kahn's algorithm by generations.
    - Exceptions are the constructor [Raises]; loops that Python writes
      with [while] carry a fuel argument and [Diverges] marks its
      exhaustion, which the theorems below rule out.
    - Strings are Rocq [string]s whose characters stand for code points
      below 256.  A file is the list of its lines as [for line in file]
      gives them, and [open] finds the file or raises
      [FileNotFoundError].
    - Of [visualize_circuit] the two lists handed to the drawing calls
      are here; the drawing itself and [main] are not. *)

From Stdlib Require Import Floats ZArith Ascii String.
From stdpp Require Import gmap strings list relations.

Set Warnings "-inexact-float,-clear-no-such-hyp".
Local Open Scope string_scope.
Local Open Scope list_scope.
Local Open Scope nat_scope.

(** ** Exceptions and outcomes *)

Inductive exn : Type :=
| NetworkXUnfeasible
| NetworkXError
| RuntimeError
| KeyError
| ValueError.

Inductive outcome (A : Type) : Type :=
| Returns (a : A)
| Raises (e : exn)
| Diverges.
Arguments Returns {A} a.
Arguments Raises {A} e.
Arguments Diverges {A}.

#[global] Instance outcome_ret : MRet outcome := @Returns.
#[global] Instance outcome_bind : MBind outcome := λ A B k m,
  match m with
  | Returns a => k a
  | Raises e => Raises e
  | Diverges => Diverges
  end.

(** [for x in xs: st = body(st, x)], stopping at the first exception. *)
Fixpoint for_each {A S} (body : S → A → outcome S) (xs : list A) (st : S)
  : outcome S :=
  match xs with
  | [] => Returns st
  | x :: rest => st' ← body st x; for_each body rest st'
  end.

(** [d[k]] on a dict. *)
Definition getitem {V} (d : gmap string V) (k : string) : outcome V :=
  match d !! k with
  | Some v => Returns v
  | None => Raises KeyError
  end.

(** ** The networkx digraph *)

Module nx.

Record DiGraph : Type := {
  nodes : list string;
  edges : list (string * string)
}.

Definition empty : DiGraph := {| nodes := []; edges := [] |}.

Definition add_node (n : string) (G : DiGraph) : DiGraph :=
  if bool_decide (n ∈ nodes G) then G
  else {| nodes := nodes G ++ [n]; edges := edges G |}.

Definition add_edge (u v : string) (G : DiGraph) : DiGraph :=
  let G' := add_node v (add_node u G) in
  if bool_decide ((u, v) ∈ edges G') then G'
  else {| nodes := nodes G'; edges := edges G' ++ [(u, v)] |}.

(** Adjacency, in insertion order. *)
Definition succ_list (G : DiGraph) (n : string) : list string :=
  (filter (λ e, e.1 = n) (edges G)).*2.

Definition pred_list (G : DiGraph) (n : string) : list string :=
  (filter (λ e, e.2 = n) (edges G)).*1.

(** [G.successors(n)]. *)
Definition successors (G : DiGraph) (n : string) : outcome (list string) :=
  if bool_decide (n ∈ nodes G) then Returns (succ_list G n)
  else Raises NetworkXError.

(** [G.in_degree()]: the pairs (node, in-degree) in node order. *)
Definition in_degree (G : DiGraph) : list (string * Z) :=
  (λ v, (v, Z.of_nat (length (pred_list G v)))) <$> nodes G.

(** The invariant of every [DiGraph] object: nodes are listed once, edges
    once, and both ends of an edge are nodes. *)
Definition wf (G : DiGraph) : Prop :=
  NoDup (nodes G) ∧ NoDup (edges G) ∧
  ∀ u v, (u, v) ∈ edges G → u ∈ nodes G ∧ v ∈ nodes G.

Definition edge (G : DiGraph) (u v : string) : Prop := (u, v) ∈ edges G.

#[global] Instance edge_dec G u v : Decision (edge G u v).
Proof. unfold edge. apply _. Defined.

(** A directed cycle is a non-empty walk from a node back to itself. *)
Definition cyclic (G : DiGraph) : Prop := ∃ n, tc (edge G) n n.
Definition acyclic (G : DiGraph) : Prop := ¬ cyclic G.

(** *** [topological_sort]

    networkx computes the order by generations (Kahn's algorithm):
    [indegree_map] counts the not yet emitted predecessors of every
    node, [zero_indegree] is the generation being built. *)

(** The body of [for child in G.neighbors(node)]. *)
Definition visit_child (st : gmap string Z * list string) (child : string)
  : outcome (gmap string Z * list string) :=
  let '(indegree_map, zero_indegree) := st in
  match indegree_map !! child with
  | None => Raises RuntimeError
  | Some d =>
      let d' := (d - 1)%Z in
      if bool_decide (d' = 0%Z)
      then Returns (delete child indegree_map, zero_indegree ++ [child])
      else Returns (<[child := d']> indegree_map, zero_indegree)
  end.

(** The body of [for node in this_generation]. *)
Definition visit_node (G : DiGraph) (st : gmap string Z * list string)
    (node : string) : outcome (gmap string Z * list string) :=
  if bool_decide (node ∈ nodes G)
  then for_each visit_child (succ_list G node) st
  else Raises RuntimeError.

(** The [while zero_indegree] loop; [emitted] collects what the generator
    has yielded so far. *)
Fixpoint generations (fuel : nat) (G : DiGraph) (indegree_map : gmap string Z)
    (zero_indegree emitted : list string) : outcome (list string) :=
  match zero_indegree with
  | [] =>
      if bool_decide (indegree_map = ∅) then Returns emitted
      else Raises NetworkXUnfeasible
  | _ =>
      match fuel with
      | O => Diverges
      | S fuel' =>
          let this_generation := zero_indegree in
          '(indegree_map', zero_indegree') ←
             for_each (visit_node G) this_generation (indegree_map, []);
          generations fuel' G indegree_map' zero_indegree'
            (emitted ++ this_generation)
      end
  end.

Definition initial_indegree_map (G : DiGraph) : gmap string Z :=
  list_to_map (filter (λ vd, (vd.2 > 0)%Z) (in_degree G)).

Definition initial_zero_indegree (G : DiGraph) : list string :=
  (filter (λ vd, vd.2 = 0%Z) (in_degree G)).*1.

(** [list(nx.topological_sort(G))]. *)
Definition topological_sort (G : DiGraph) : outcome (list string) :=
  generations (S (length (nodes G))) G
    (initial_indegree_map G) (initial_zero_indegree G) [].

End nx.

(** ** The circuit *)

Record DigitalCircuit : Type := {
  delays : gmap string float;
  graph : nx.DiGraph;
  node_types : gmap string string
}.

(** The delay table of [__init__]. *)
Definition default_delays : gmap string float :=
  <["OUTPUT" := 0.0%float]>
  (<["INPUT" := 0.0%float]>
  (<["MUX" := 1.0%float]>
  (<["REG" := 0.2%float]>
  (<["MUL" := 1.0%float]>
  (<["ADD" := 1.0%float]> ∅))))).

(** [DigitalCircuit()]. *)
Definition init : DigitalCircuit :=
  {| delays := default_delays; graph := nx.empty; node_types := ∅ |}.

(** *** Methods run in a state monad over [self] that also records what
    is printed. *)

Definition M (A : Type) : Type :=
  DigitalCircuit → outcome A * DigitalCircuit * list string.

Definition mret {A} (a : A) : M A := λ self, (Returns a, self, []).

Definition mbind {A B} (m : M A) (k : A → M B) : M B := λ self,
  match m self with
  | (Returns a, self', out) =>
      let '(r, self'', out') := k a self' in (r, self'', out ++ out')
  | (Raises e, self', out) => (Raises e, self', out)
  | (Diverges, self', out) => (Diverges, self', out)
  end.

Definition gets {A} (f : DigitalCircuit → A) : M A :=
  λ self, (Returns (f self), self, []).

Definition modify (f : DigitalCircuit → DigitalCircuit) : M unit :=
  λ self, (Returns tt, f self, []).

Definition print (line : string) : M unit :=
  λ self, (Returns tt, self, [line]).

Definition lift {A} (o : outcome A) : M A := λ self, (o, self, []).

Notation "x ⇐ m ;; k" := (mbind m (λ x, k))
  (at level 100, m at next level, k at level 200, right associativity,
   format "x  ⇐  m ;;  '/' k").

(** [for x in xs: body(x)] inside a method. *)
Fixpoint mfor {A} (xs : list A) (body : A → M unit) : M unit :=
  match xs with
  | [] => mret tt
  | x :: rest => _ ⇐ body x;; mfor rest body
  end.

(** The body of the loop of [parse_circuit], for a line that reads
    [node_type node_id input_nodes...]: the node and its type are
    recorded, then one edge per input node. *)
Definition add_component (node_type node_id : string)
    (input_nodes : list string) : M unit :=
  _ ⇐ modify (λ self,
        {| delays := delays self;
           graph := nx.add_node node_id (graph self);
           node_types := <[node_id := node_type]> (node_types self) |});;
  mfor input_nodes (λ input_node,
    modify (λ self,
      {| delays := delays self;
         graph := nx.add_edge input_node node_id (graph self);
         node_types := node_types self |})).

(** [self.node_types.get(node_id, "UNKNOWN")]. *)
Definition identify_node_type_of (node_types : gmap string string)
    (node_id : string) : string :=
  default "UNKNOWN" (node_types !! node_id).

Definition identify_node_type (node_id : string) : M string :=
  types ⇐ gets node_types;; mret (identify_node_type_of types node_id).

(** [self.delays.get(self.identify_node_type(node), 0.0)]. *)
Definition node_delay_of (self : DigitalCircuit) (node : string) : float :=
  default 0.0%float
    (delays self !! identify_node_type_of (node_types self) node).

(** The loop of [calculate_path_delay], from [total_delay]. *)
Definition sum_delays (self : DigitalCircuit) (path : list string)
    (total_delay : float) : float :=
  foldl (λ total node, (total + node_delay_of self node)%float)
        total_delay path.

Definition calculate_path_delay (path : list string) : M float :=
  self ⇐ gets id;; mret (sum_delays self path 0.0%float).

(** *** [find_critical_path] *)

(** [self.identify_node_type(node) == t]. *)
Definition is_type (self : DigitalCircuit) (t : string) (node : string)
  : Prop := identify_node_type_of (node_types self) node = t.

#[global] Instance is_type_dec self t node : Decision (is_type self t node).
Proof. unfold is_type. apply _. Defined.

(** [{node: float('-inf') for node in self.graph.nodes()}] *)
Definition initial_distances (G : nx.DiGraph) : gmap string float :=
  list_to_map ((λ node, (node, neg_infinity)) <$> nx.nodes G).

(** [{node: None for node in self.graph.nodes()}] *)
Definition initial_predecessors (G : nx.DiGraph)
  : gmap string (option string) :=
  list_to_map ((λ node, (node, None)) <$> nx.nodes G).

(** The loop that sets the distance of INPUT nodes to zero. *)
Definition set_input_distances (self : DigitalCircuit)
    (distances : gmap string float) : gmap string float :=
  foldl (λ distances node,
           if bool_decide (is_type self "INPUT" node)
           then <[node := 0.0%float]> distances else distances)
        distances (nx.nodes (graph self)).

(** The body of [for successor in self.graph.successors(node)]. *)
Definition relax (node : string) (node_delay : float)
    (st : gmap string float * gmap string (option string))
    (successor : string)
  : outcome (gmap string float * gmap string (option string)) :=
  let '(distances, predecessors) := st in
  dn ← getitem distances node;
  let new_distance := (dn + node_delay)%float in
  ds ← getitem distances successor;
  if (ds <? new_distance)%float
  then Returns (<[successor := new_distance]> distances,
                <[successor := Some node]> predecessors)
  else Returns st.

(** The body of [for node in topo_sort]. *)
Definition relax_node (self : DigitalCircuit)
    (st : gmap string float * gmap string (option string)) (node : string)
  : outcome (gmap string float * gmap string (option string)) :=
  let node_delay := node_delay_of self node in
  succs ← nx.successors (graph self) node;
  for_each (relax node node_delay) succs st.

(** Distances and predecessors after the longest-path loop. *)
Definition longest_paths (self : DigitalCircuit) (topo_sort : list string)
  : outcome (gmap string float * gmap string (option string)) :=
  let distances := initial_distances (graph self) in
  let predecessors := initial_predecessors (graph self) in
  let distances := set_input_distances self distances in
  for_each (relax_node self) topo_sort (distances, predecessors).

(** Python's [max(items, key=key)]: the first item is kept until a later
    one has a strictly greater key; no item is a [ValueError]. *)
Fixpoint max_loop (key : string → outcome float) (items : list string)
    (maxitem : string) (maxval : float) : outcome string :=
  match items with
  | [] => Returns maxitem
  | item :: rest =>
      val ← key item;
      if (maxval <? val)%float then max_loop key rest item val
      else max_loop key rest maxitem maxval
  end.

Definition py_max (items : list string) (key : string → outcome float)
  : outcome string :=
  match items with
  | [] => Raises ValueError
  | item :: rest => maxval ← key item; max_loop key rest item maxval
  end.

Definition output_nodes (self : DigitalCircuit) : list string :=
  filter (is_type self "OUTPUT") (nx.nodes (graph self)).

Definition select_end_node (self : DigitalCircuit)
    (distances : gmap string float) : outcome string :=
  py_max (output_nodes self) (getitem distances).

(** The [while current is not None] loop. *)
Fixpoint walk_back (fuel : nat) (predecessors : gmap string (option string))
    (current : option string) (critical_path : list string)
  : outcome (list string) :=
  match current with
  | None => Returns critical_path
  | Some node =>
      match fuel with
      | O => Diverges
      | S fuel' =>
          next ← getitem predecessors node;
          walk_back fuel' predecessors next (critical_path ++ [node])
      end
  end.

(** Everything after the [try] block. *)
Definition critical_path_from (self : DigitalCircuit)
    (topo_sort : list string) : outcome (list string * float) :=
  '(distances, predecessors) ← longest_paths self topo_sort;
  end_node ← select_end_node self distances;
  critical_path ←
    walk_back (length (nx.nodes (graph self))) predecessors (Some end_node) [];
  total ← getitem distances end_node;
  Returns (reverse critical_path, total).

Definition find_critical_path : M (list string * float) :=
  self ⇐ gets id;;
  match nx.topological_sort (graph self) with
  | Raises NetworkXUnfeasible =>
      _ ⇐ print "Error: Circuit contains cycles";;
      mret ([], 0.0%float)
  | Returns topo_sort => lift (critical_path_from self topo_sort)
  | Raises e => lift (Raises e)
  | Diverges => lift Diverges
  end.

(** ** Python's string methods

    The characters of a [string] stand for code points below 256.
    [str.isspace] holds of the code points 9 to 13, 28 to 32, 133 and
    160 among them. *)
Module py.

Definition isspace (c : ascii) : bool :=
  let n := nat_of_ascii c in
  ((9 <=? n) && (n <=? 13)) || ((28 <=? n) && (n <=? 32))
  || (n =? 133) || (n =? 160).

(** [s.lstrip()] *)
Fixpoint lstrip (s : string) : string :=
  match s with
  | String c s' => if isspace c then lstrip s' else s
  | EmptyString => EmptyString
  end.

(** [s.rstrip()] *)
Fixpoint rstrip (s : string) : string :=
  match s with
  | String c s' =>
      match rstrip s' with
      | EmptyString => if isspace c then EmptyString else String c EmptyString
      | r => String c r
      end
  | EmptyString => EmptyString
  end.

(** [s.strip()] *)
Definition strip (s : string) : string := lstrip (rstrip s).

(** [s.startswith(p)] *)
Definition startswith (p s : string) : bool := String.prefix p s.

(** [p in s] *)
Fixpoint contains (p s : string) : bool :=
  String.prefix p s ||
  match s with
  | String _ s' => contains p s'
  | EmptyString => false
  end.

(** [s.split(sep)] for a separator of one character: the pieces between
    the separators, empty ones included. *)
Fixpoint split_on (sep : ascii) (s : string) : list string :=
  match s with
  | EmptyString => [EmptyString]
  | String c s' =>
      if Ascii.eqb c sep then EmptyString :: split_on sep s'
      else match split_on sep s' with
           | piece :: rest => String c piece :: rest
           | [] => [String c EmptyString]
           end
  end.

(** [s.split()]: the maximal runs of characters that are not white
    space. *)
Fixpoint split (s : string) : list string :=
  match s with
  | EmptyString => []
  | String c s' =>
      if isspace c then split s'
      else match s' with
           | String c' _ =>
               if isspace c' then String c EmptyString :: split s'
               else match split s' with
                    | word :: rest => String c word :: rest
                    | [] => [String c EmptyString]
                    end
           | EmptyString => [String c EmptyString]
           end
  end.

(** [not s] for a value that is [None] or a string. *)
Definition falsy (s : option string) : bool :=
  match s with
  | None => true
  | Some s => bool_decide (s = EmptyString)
  end.

End py.

(** ** [parse_circuit] *)

(** The two exceptions that [parse_circuit] can meet; it handles both. *)
Inductive parse_error : Type :=
| FileNotFoundError
| IndexError.

(** The body of [for line in file], given [circuit_name]; it gives the
    new [circuit_name], or the exception that ends the loop. *)
Definition parse_line (line : string) (circuit_name : option string)
  : M (parse_error + option string) :=
  let line := py.strip line in
  if bool_decide (line = EmptyString) || py.startswith "#" line then
    if py.falsy circuit_name && py.contains "Circuit name" line then
      match py.split_on ":" line !! 1 with
      | Some piece => mret (inr (Some (py.strip piece)))
      | None => mret (inl IndexError)
      end
    else mret (inr circuit_name)
  else
    match py.split line with
    | node_type :: node_id :: input_nodes =>
        _ ⇐ add_component node_type node_id input_nodes;;
        mret (inr circuit_name)
    | _ => mret (inl IndexError)
    end.

Fixpoint parse_lines (lines : list string) (circuit_name : option string)
  : M (parse_error + option string) :=
  match lines with
  | [] => mret (inr circuit_name)
  | line :: rest =>
      r ⇐ parse_line line circuit_name;;
      match r with
      | inl e => mret (inl e)
      | inr circuit_name => parse_lines rest circuit_name
      end
  end.

(** [parse_circuit(filename)], where [files] gives the lines of the
    files that exist.  The dict it returns is the pair of its two
    values. *)
Definition parse_circuit (files : string → option (list string))
    (filename : string) : M (option (option string * nx.DiGraph)) :=
  r ⇐ match files filename with
      | None => mret (inl FileNotFoundError)
      | Some lines => parse_lines lines None
      end;;
  match r with
  | inr circuit_name =>
      G ⇐ gets graph;; mret (Some (circuit_name, G))
  | inl FileNotFoundError =>
      _ ⇐ print (String.append "Error: File "
                  (String.append filename " not found"));;
      mret None
  | inl IndexError =>
      _ ⇐ print "Error parsing circuit file: list index out of range";;
      mret None
  end.

(** ** [visualize_circuit] *)

(** [visualize_circuit]: the two lists it hands to the drawing calls. *)
Definition critical_edges (critical_path : list string)
  : list (string * string) :=
  zip (take (length critical_path - 1) critical_path) (drop 1 critical_path).

Definition node_colors (self : DigitalCircuit) (critical_path : list string)
  : list string :=
  (λ node, if bool_decide (node ∈ critical_path) then "red" else "lightblue")
    <$> nx.nodes (graph self).

(** ** Examples *)

Module Examples.

(** The node types of the chain INPUT I1, ADD A1 I1, ADD A2 A1,
    OUTPUT O1 A2. *)
Definition chain_types : gmap string string :=
  <["O1" := "OUTPUT"]> (<["A2" := "ADD"]>
  (<["A1" := "ADD"]> (<["I1" := "INPUT"]> ∅))).

(** A circuit with the chain's types and the default delays on [G]. *)
Definition chain_on (G : nx.DiGraph) : DigitalCircuit :=
  {| delays := default_delays; graph := G; node_types := chain_types |}.

(** The chain as [parse_circuit] builds it. *)
Definition chain : DigitalCircuit :=
  chain_on (nx.add_edge "A2" "O1" (nx.add_node "O1"
           (nx.add_edge "A1" "A2" (nx.add_node "A2"
           (nx.add_edge "I1" "A1" (nx.add_node "A1"
           (nx.add_node "I1" nx.empty))))))).

(** Two adders feeding each other: ADD A B, ADD B A. *)
Definition loop : DigitalCircuit :=
  {| delays := default_delays;
     graph := nx.add_edge "A" "B" (nx.add_node "B"
             (nx.add_edge "B" "A" (nx.add_node "A" nx.empty)));
     node_types := <["B" := "ADD"]> (<["A" := "ADD"]> ∅) |}.

(** An adder without inputs feeding the only output: ADD A1, OUTPUT O1 A1. *)
Definition floating : DigitalCircuit :=
  {| delays := default_delays;
     graph := nx.add_edge "A1" "O1" (nx.add_node "O1"
             (nx.add_node "A1" nx.empty));
     node_types := <["O1" := "OUTPUT"]> (<["A1" := "ADD"]> ∅) |}.

(** No output at all: INPUT I1, ADD A1 I1. *)
Definition no_output : DigitalCircuit :=
  {| delays := default_delays;
     graph := nx.add_edge "I1" "A1" (nx.add_node "A1"
             (nx.add_node "I1" nx.empty));
     node_types := <["A1" := "ADD"]> (<["I1" := "INPUT"]> ∅) |}.

(** An output that no input reaches, declared before one that an input
    does reach: ADD A3, OUTPUT O2 A3, INPUT I1, ADD A1 I1, OUTPUT O1 A1. *)
Definition two_outputs : DigitalCircuit :=
  {| delays := default_delays;
     graph := nx.add_edge "A1" "O1" (nx.add_node "O1"
             (nx.add_edge "I1" "A1" (nx.add_node "A1"
             (nx.add_node "I1"
             (nx.add_edge "A3" "O2" (nx.add_node "O2"
             (nx.add_node "A3" nx.empty)))))));
     node_types := <["O1" := "OUTPUT"]> (<["A1" := "ADD"]>
                   (<["I1" := "INPUT"]> (<["O2" := "OUTPUT"]>
                   (<["A3" := "ADD"]> ∅)))) |}.

End Examples.

Module Samples.

(** Two outputs fed by the same adder: INPUT I1, ADD A1 I1, OUTPUT O1 A1,
    OUTPUT O2 A1. *)
Definition tied : DigitalCircuit :=
  {| delays := default_delays;
     graph := nx.add_edge "A1" "O2" (nx.add_node "O2"
             (nx.add_edge "A1" "O1" (nx.add_node "O1"
             (nx.add_edge "I1" "A1" (nx.add_node "A1"
             (nx.add_node "I1" nx.empty))))));
     node_types := <["O2" := "OUTPUT"]> (<["O1" := "OUTPUT"]>
                   (<["A1" := "ADD"]> (<["I1" := "INPUT"]> ∅))) |}.

End Samples.

Module Files.

(** The four lines of the chain, after a name, a comment and a blank
    line. *)
Definition chain : list string :=
  ["# Circuit name: chain
"; "# two adders
"; "
"; "INPUT I1
"; "ADD A1 I1
"; "ADD  A2	A1
"; "OUTPUT O1 A2"].

(** A file whose third line has a type and nothing else. *)
Definition broken : list string :=
  ["INPUT I1
"; "ADD A1 I1
"; "OUTPUT
"; "OUTPUT O1 A1
"].

Definition disk (name : string) : option (list string) :=
  if bool_decide (name = "chain.txt") then Some chain
  else if bool_decide (name = "broken.txt") then Some broken
  else None.

End Files.

(** ** Vocabulary of the statements and of their proofs *)

(** A float that is [>= 0]: a zero, a positive number or [+inf]; not
    [NaN]. *)
Definition nonneg (x : float) : Prop := (0 <=? x)%float = true.

(** The specification-level view of a non-negative number. *)
Definition sf_nonneg (s : spec_float) : Prop :=
  match s with
  | S754_zero _ => True
  | S754_infinity sx | S754_finite sx _ _ => sx = false
  | S754_nan => False
  end.

(** A walk: consecutive nodes are joined by an edge. *)
Fixpoint walk (G : nx.DiGraph) (w : list string) : Prop :=
  match w with
  | a :: (b :: _) as rest => nx.edge G a b ∧ walk G rest
  | _ => True
  end.

(** A topological order of [G]: every node once, each after all of its
    predecessors. *)
Definition topo_order (G : nx.DiGraph) (l : list string) : Prop :=
  NoDup l ∧ (∀ v, v ∈ l ↔ v ∈ nx.nodes G) ∧
  ∀ l1 v l2 u, l = l1 ++ v :: l2 → nx.edge G u v → u ∈ l1.

(** [v] can be reached from a node of type INPUT along edges. *)
Definition reachable (self : DigitalCircuit) (v : string) : Prop :=
  ∃ i, i ∈ nx.nodes (graph self) ∧ is_type self "INPUT" i ∧
       rtc (nx.edge (graph self)) i v.

(** Every configured delay is a non-negative number. *)
Definition nonneg_delays (self : DigitalCircuit) : Prop :=
  ∀ t d, delays self !! t = Some d → nonneg d.

(** The agreement the specification states between the two methods:
    whenever a path and a total are returned, [calculate_path_delay] of
    the path [==] the total. *)
Definition path_delay_agrees (self : DigitalCircuit) : Prop :=
  ∀ path total out,
    find_critical_path self = (Returns (path, total), self, out) →
    ∃ d, calculate_path_delay path self = (Returns d, self, []) ∧
         (d =? total)%float = true.

(** The predecessors of [v] that are not in [done]. *)
Definition waiting (G : nx.DiGraph) (done : list string) (v : string)
  : list string :=
  filter (λ u, u ∉ done) (nx.pred_list G v).

(** The state of the sort: [done] has been emitted and its children
    counted down, [queue] waits to be emitted, and [indeg] counts, for every
    other node, its predecessors outside [done]. *)
Record kahn_inv (G : nx.DiGraph) (done queue : list string)
    (indeg : gmap string Z) : Prop := {
  ki_nodup : NoDup (done ++ queue);
  ki_nodes : ∀ v, v ∈ done ++ queue → v ∈ nx.nodes G;
  ki_preds : ∀ v u, v ∈ done ++ queue → nx.edge G u v → u ∈ done;
  ki_order : ∀ l1 v l2 u,
    done ++ queue = l1 ++ v :: l2 → nx.edge G u v → u ∈ l1;
  ki_count : ∀ v, v ∈ nx.nodes G → v ∉ done ++ queue →
    indeg !! v = Some (Z.of_nat (length (waiting G done v))) ∧
    0 < length (waiting G done v);
  ki_none : ∀ v, v ∈ done ++ queue ∨ v ∉ nx.nodes G → indeg !! v = None
}.

(** The sort is stuck: nothing is ready, yet nodes are left. *)
Definition stuck (G : nx.DiGraph) : Prop :=
  ∃ done indeg, kahn_inv G done [] indeg ∧ indeg ≠ ∅.

(** The longest-path loops visit the edges of the graph in this order. *)
Definition edges_in_order (G : nx.DiGraph) (topo : list string)
  : list (string * string) :=
  topo ≫= λ x, (λ s, (x, s)) <$> nx.succ_list G x.

(** The body of the two nested loops, for one edge. *)
Definition relax_edge (self : DigitalCircuit)
    (st : gmap string float * gmap string (option string))
    (e : string * string) :=
  relax e.1 (node_delay_of self e.1) st e.2.

(** The distances before the longest-path loop. *)
Definition start_distances (self : DigitalCircuit) : gmap string float :=
  set_input_distances self (initial_distances (graph self)).

(** What holds of [distances] and [predecessors] once the edges [pre]
    have been relaxed. *)
Record dp_inv (self : DigitalCircuit) (pre : list (string * string))
    (dist : gmap string float) (pred : gmap string (option string))
  : Prop := {
  dp_dom : ∀ v, v ∈ nx.nodes (graph self) →
    is_Some (dist !! v) ∧ is_Some (pred !! v);
  dp_init : ∀ v, pred !! v = Some None →
    dist !! v = start_distances self !! v;
  dp_link : ∀ v u, pred !! v = Some (Some u) →
    (u, v) ∈ pre ∧
    ∃ du y, dist !! u = Some du ∧
            dist !! v = Some (du + node_delay_of self u)%float ∧
            (y <? du + node_delay_of self u)%float = true;
  dp_reach : ∀ v dv, dist !! v = Some dv →
    dv = neg_infinity ∨ reachable self v;
  dp_sign : nonneg_delays self → ∀ v dv, dist !! v = Some dv →
    dv = neg_infinity ∨ nonneg dv;
  dp_inputs : nonneg_delays self → ∀ v,
    v ∈ nx.nodes (graph self) → is_type self "INPUT" v →
    ∃ dv, dist !! v = Some dv ∧ nonneg dv;
  dp_complete : nonneg_delays self → ∀ u v du,
    (u, v) ∈ pre → dist !! u = Some du → nonneg du →
    ∃ dv, dist !! v = Some dv ∧ nonneg dv
}.

(** [l] lists the predecessors of [c] in turn, up to a node that has
    none. *)
Fixpoint pred_chain (pred : gmap string (option string)) (c : string)
    (l : list string) : Prop :=
  match l with
  | [] => pred !! c = Some None
  | u :: l' => pred !! c = Some (Some u) ∧ pred_chain pred u l'
  end.

(** What [find_critical_path] computes, step by step: the order, the
    two dicts, the end node, its chain of predecessors and the result. *)
Record analysis (self : DigitalCircuit) (topo : list string)
    (dist : gmap string float) (pred : gmap string (option string))
    (end_node : string) (chain : list string) (total : float) : Prop := {
  an_topo : nx.topological_sort (graph self) = Returns topo;
  an_order : topo_order (graph self) topo;
  an_paths : longest_paths self topo = Returns (dist, pred);
  an_inv : dp_inv self (edges_in_order (graph self) topo) dist pred;
  an_end : select_end_node self dist = Returns end_node;
  an_output : end_node ∈ output_nodes self;
  an_total : dist !! end_node = Some total;
  an_best : nonneg_delays self →
    (∃ o d, o ∈ output_nodes self ∧ dist !! o = Some d ∧ nonneg d) →
    nonneg total;
  an_chain : pred_chain pred end_node chain;
  an_walk : walk (graph self) (reverse (end_node :: chain));
  an_result :
    find_critical_path self
    = (Returns (reverse (end_node :: chain), total), self, [])
}.

(** *** The order of the floats *)

(** Where a number that is not [NaN] stands in the order: sign class,
    then exponent, then mantissa. *)
Definition sf_rank (s : spec_float) : Z * Z * Z :=
  match s with
  | S754_infinity true => (-2, 0, 0)%Z
  | S754_finite true m e => (-1, - e, - Zpos m)%Z
  | S754_zero _ | S754_nan => (0, 0, 0)%Z
  | S754_finite false m e => (1, e, Zpos m)%Z
  | S754_infinity false => (2, 0, 0)%Z
  end.

Definition rank_lt (a b : Z * Z * Z) : Prop :=
  (a.1.1 < b.1.1 ∨
   (a.1.1 = b.1.1 ∧ (a.1.2 < b.1.2 ∨ (a.1.2 = b.1.2 ∧ a.2 < b.2))))%Z.

(** *** The longest-path loop at its end *)

(** No relaxed edge can be relaxed again: [distances[v]] is not below
    [distances[u] + delay(u)]. *)
Definition settled (self : DigitalCircuit) (pre : list (string * string))
    (dist : gmap string float) : Prop :=
  ∀ u v, (u, v) ∈ pre →
    ∃ du dv, dist !! u = Some du ∧ dist !! v = Some dv ∧
             (dv <? du + node_delay_of self u)%float = false.

(** *** The pure reading of the loop of [parse_circuit] *)

(** A component line: type, id and input ids. *)
Definition component : Type := string * string * list string.

(** The circuit after [add_component]. *)
Definition apply_component (self : DigitalCircuit) (c : component)
  : DigitalCircuit :=
  (add_component c.1.1 c.1.2 c.2 self).1.2.

(** What a line asks for: a component to add, if any, and the new
    [circuit_name] or the exception. *)
Definition read_line (line : string) (circuit_name : option string)
  : option component * (parse_error + option string) :=
  let line := py.strip line in
  if bool_decide (line = EmptyString) || py.startswith "#" line then
    if py.falsy circuit_name && py.contains "Circuit name" line then
      match py.split_on ":" line !! 1 with
      | Some piece => (None, inr (Some (py.strip piece)))
      | None => (None, inl IndexError)
      end
    else (None, inr circuit_name)
  else
    match py.split line with
    | node_type :: node_id :: input_nodes =>
        (Some (node_type, node_id, input_nodes), inr circuit_name)
    | _ => (None, inl IndexError)
    end.

(** The components that the loop adds, in order, up to the end of the
    file or the first exception, and how the loop ends. *)
Fixpoint read_lines (lines : list string) (circuit_name : option string)
  : list component * (parse_error + option string) :=
  match lines with
  | [] => ([], inr circuit_name)
  | line :: rest =>
      match read_line line circuit_name with
      | (c, inl e) => (option_list c, inl e)
      | (c, inr circuit_name) =>
          let '(cs, r) := read_lines rest circuit_name in
          (option_list c ++ cs, r)
      end
  end.

(** [G'] has the nodes and edges of [G], in the same order, and maybe
    more after them. *)
Definition extends (G G' : nx.DiGraph) : Prop :=
  nx.nodes G `prefix_of` nx.nodes G' ∧ nx.edges G `prefix_of` nx.edges G'.

(** The type that the last component of [cs] for [n] declares. *)
Definition last_declared (cs : list component) (n : string)
  : option string :=
  foldl (λ acc c, if bool_decide (c.1.2 = n) then Some c.1.1 else acc)
        None cs.

(** The component that a line declares, if it is a component line with
    an id. *)
Definition component_of (line : string) : option component :=
  (read_line line None).1.

(** The nodes and edges of a component are in [G]. *)
Definition present (G : nx.DiGraph) (c : component) : Prop :=
  c.1.2 ∈ nx.nodes G ∧
  ∀ i, i ∈ c.2 → i ∈ nx.nodes G ∧ (i, c.1.2) ∈ nx.edges G.

(** ** Floating-point facts *)

Module Float.
Local Open Scope float_scope.

Lemma nonneg_spec x : nonneg x ↔ sf_nonneg (Prim2SF x).
Proof.
  unfold nonneg. rewrite leb_spec.
  change (Prim2SF 0) with (S754_zero false).
  destruct (Prim2SF x) as [s|s| |s m e]; try destruct s; simpl;
    unfold SFleb; simpl; intuition congruence.
Qed.

Lemma shr_1_nonneg mrs : (0 <= shr_m mrs)%Z -> (0 <= shr_m (shr_1 mrs))%Z.
Proof.
  destruct mrs as [m r s]. simpl.
  destruct m as [|[p|p|]|[p|p|]]; simpl; lia.
Qed.

Lemma iter_pos_nonneg p mrs :
  (0 <= shr_m mrs)%Z → (0 <= shr_m (SpecFloat.iter_pos shr_1 p mrs))%Z.
Proof.
  revert mrs. induction p as [p IH|p IH|]; intros mrs H; simpl.
  - apply IH, IH, shr_1_nonneg, H.
  - apply IH, IH, H.
  - apply shr_1_nonneg, H.
Qed.

Lemma shr_fexp_nonneg prec emax m e l :
  (0 <= m)%Z → (0 <= shr_m (shr_fexp prec emax m e l).1)%Z.
Proof.
  intros Hm. unfold shr_fexp, shr.
  assert (0 <= shr_m (shr_record_of_loc m l))%Z as H0
    by (destruct l as [|[]]; exact Hm).
  destruct (_ - e)%Z; simpl; try exact H0.
  apply iter_pos_nonneg, H0.
Qed.

Lemma round_nearest_even_nonneg m l :
  (0 <= m)%Z → (0 <= round_nearest_even m l)%Z.
Proof.
  intros Hm. destruct l as [|[]]; simpl; try lia.
  destruct (Z.even m); lia.
Qed.

Lemma binary_round_aux_sign prec emax sx m e l :
  (0 <= m)%Z →
  match binary_round_aux prec emax sx m e l with
  | S754_zero s | S754_infinity s | S754_finite s _ _ => s = sx
  | S754_nan => False
  end.
Proof.
  intros Hm. unfold binary_round_aux.
  pose proof (shr_fexp_nonneg prec emax m e l Hm) as H1.
  destruct (shr_fexp prec emax m e l) as [mrs' e']. simpl in H1.
  pose proof (shr_fexp_nonneg prec emax
    (round_nearest_even (shr_m mrs') (loc_of_shr_record mrs')) e' loc_Exact
    (round_nearest_even_nonneg _ _ H1)) as H2.
  destruct (shr_fexp prec emax _ e' loc_Exact) as [mrs'' e'']. simpl in H2.
  destruct (shr_m mrs''); try lia; try done.
  destruct (_ <=? _)%Z; done.
Qed.

Lemma binary_round_sign prec emax sx m e :
  match binary_round prec emax sx m e with
  | S754_zero s | S754_infinity s | S754_finite s _ _ => s = sx
  | S754_nan => False
  end.
Proof.
  unfold binary_round. destruct (shl_align _ _ _) as [mz ez].
  apply binary_round_aux_sign. lia.
Qed.

Lemma SFadd_nonneg prec emax x y :
  sf_nonneg x → sf_nonneg y → sf_nonneg (SFadd prec emax x y).
Proof.
  destruct x as [sx|sx| |sx mx ex], y as [sy|sy| |sy my ey]; simpl;
    try done; intros Hx Hy; subst; try done.
  - destruct sx, sy; done.
  - unfold binary_normalize. simpl.
    pose proof (binary_round_sign prec emax false
      ((shl_align mx ex (Z.min ex ey)).1 + (shl_align my ey (Z.min ex ey)).1)
      (Z.min ex ey)) as H.
    destruct (binary_round _ _ _ _ _); done.
Qed.

(** Adding non-negative numbers gives a non-negative number (possibly
    [+infinity]), never [NaN]. *)
Lemma add_nonneg x y : nonneg x → nonneg y → nonneg (x + y).
Proof.
  rewrite !nonneg_spec, add_spec. apply SFadd_nonneg.
Qed.

(** [-inf + d] is [-inf] or [NaN]: nothing is smaller. *)
Lemma ltb_neg_infinity_add y d : (y <? neg_infinity + d) = false.
Proof.
  rewrite ltb_spec, add_spec.
  change (Prim2SF neg_infinity) with (S754_infinity true).
  destruct (Prim2SF d) as [s|s| |s m e], (Prim2SF y) as [s'|s'| |s' m' e'];
    try destruct s; try destruct s'; reflexivity.
Qed.

Lemma ltb_neg_infinity y : (y <? neg_infinity) = false.
Proof.
  rewrite ltb_spec.
  change (Prim2SF neg_infinity) with (S754_infinity true).
  destruct (Prim2SF y) as [s'|s'| |s' m' e']; try destruct s'; reflexivity.
Qed.

Lemma neg_infinity_ltb_nonneg x : nonneg x → (neg_infinity <? x) = true.
Proof.
  rewrite nonneg_spec, ltb_spec.
  change (Prim2SF neg_infinity) with (S754_infinity true).
  destruct (Prim2SF x) as [s|s| |s m e]; simpl; try done;
    intros ->; reflexivity.
Qed.

Lemma nonneg_not_neg_infinity x : nonneg x → x ≠ neg_infinity.
Proof. intros H ->. vm_compute in H. discriminate. Qed.

Lemma SFcompare_refl s : s ≠ S754_nan → SFcompare s s = Some Eq.
Proof.
  destruct s as [sx|sx| |sx m e]; try done; intros _; simpl.
  - destruct sx; done.
  - destruct sx; rewrite Z.compare_refl; simpl.
    + by rewrite Pos.compare_cont_refl.
    + by rewrite Pos.compare_cont_refl.
Qed.

(** Adding [0.0] to a number gives a number that [==] it. *)
Lemma add_zero_eqb x : (x =? x) = true → (x + 0 =? x) = true.
Proof.
  rewrite !FloatAxioms.eqb_spec, add_spec.
  change (Prim2SF 0) with (S754_zero false).
  unfold SFeqb.
  destruct (Prim2SF x) as [sx|sx| |sx m e] eqn:E; try done; intros _;
    unfold SF64add; simpl; try destruct sx; try done;
    by rewrite SFcompare_refl.
Qed.

Lemma nonneg_eqb_refl x : nonneg x → (x =? x) = true.
Proof.
  rewrite nonneg_spec, FloatAxioms.eqb_spec. unfold SFeqb. intros H.
  rewrite SFcompare_refl; [done|]. by destruct (Prim2SF x).
Qed.

End Float.

(** ** Loops and adjacency *)

Section for_each.
Context {A S : Type} (body : S → A → outcome S).

(** A loop invariant [I pre post st]: [pre] holds the items already
    handled, [post] those still to come. *)
Lemma for_each_returns (I : list A → list A → S → Prop) xs st :
  I [] xs st →
  (∀ pre x post st, xs = pre ++ x :: post → I pre (x :: post) st →
     ∃ st', body st x = Returns st' ∧ I (pre ++ [x]) post st') →
  ∃ st', for_each body xs st = Returns st' ∧ I xs [] st'.
Proof.
  intros H0 Hstep.
  cut (∀ post pre st, xs = pre ++ post → I pre post st →
         ∃ st', for_each body post st = Returns st' ∧ I xs [] st').
  { intros Hc. by apply (Hc xs [] st). }
  induction post as [|x post IH]; intros pre st1 Hxs HI.
  - exists st1. rewrite app_nil_r in Hxs. by subst.
  - destruct (Hstep pre x post st1 Hxs HI) as (st2 & Hb & HI2).
    simpl. rewrite Hb. simpl.
    apply (IH (pre ++ [x])); [by rewrite <-app_assoc|done].
Qed.

End for_each.

Section adjacency.
Context (G : nx.DiGraph).

Lemma elem_of_succ_list u v : v ∈ nx.succ_list G u ↔ nx.edge G u v.
Proof.
  unfold nx.succ_list, nx.edge. rewrite list_elem_of_fmap. split.
  - intros ([a b] & -> & [E Hin]%list_elem_of_filter). simpl in *. by subst.
  - intros H. exists (u, v). split; [done|]. by apply list_elem_of_filter.
Qed.

Lemma elem_of_pred_list u v : u ∈ nx.pred_list G v ↔ nx.edge G u v.
Proof.
  unfold nx.pred_list, nx.edge. rewrite list_elem_of_fmap. split.
  - intros ([a b] & -> & [E Hin]%list_elem_of_filter). simpl in *. by subst.
  - intros H. exists (u, v). split; [done|]. by apply list_elem_of_filter.
Qed.

Lemma NoDup_succ_list u : NoDup (nx.edges G) → NoDup (nx.succ_list G u).
Proof.
  intros H. apply NoDup_fmap_2_strong; [|by apply NoDup_filter].
  intros [a b] [c d] [E1 _]%list_elem_of_filter [E2 _]%list_elem_of_filter.
  simpl in *. congruence.
Qed.

Lemma NoDup_pred_list v : NoDup (nx.edges G) → NoDup (nx.pred_list G v).
Proof.
  intros H. apply NoDup_fmap_2_strong; [|by apply NoDup_filter].
  intros [a b] [c d] [E1 _]%list_elem_of_filter [E2 _]%list_elem_of_filter.
  simpl in *. congruence.
Qed.

End adjacency.

Lemma filter_notin_snoc (l done : list string) (n : string) :
  NoDup l → n ∉ done →
  length (filter (λ u, u ∉ done ++ [n]) l) + (if decide (n ∈ l) then 1 else 0)
  = length (filter (λ u, u ∉ done) l).
Proof.
  intros Hl Hn. induction Hl as [|a l Ha Hl IH]; [done|].
  rewrite !filter_cons.
  repeat case_decide; simpl; first [lia | exfalso; set_solver].
Qed.

Lemma waiting_snoc G done n v :
  NoDup (nx.edges G) → n ∉ done →
  length (waiting G (done ++ [n]) v)
    + (if decide (nx.edge G n v) then 1 else 0)
  = length (waiting G done v).
Proof.
  intros HG Hn. unfold waiting.
  rewrite <-(filter_notin_snoc _ done n (NoDup_pred_list G v HG) Hn).
  f_equal. destruct (decide (nx.edge G n v)) as [H|H].
  - rewrite decide_True; [done|]. by apply elem_of_pred_list.
  - rewrite decide_False; [done|]. by rewrite elem_of_pred_list.
Qed.

Lemma waiting_nil G done v :
  waiting G done v = [] ↔ ∀ u, nx.edge G u v → u ∈ done.
Proof.
  unfold waiting. split.
  - intros H u Hu%elem_of_pred_list.
    destruct (decide (u ∈ done)) as [|Hnd]; [done|].
    by destruct (filter_nil_not_elem_of _ _ u H Hnd).
  - intros H. apply elem_of_nil_inv. intros u [Hu Hin]%list_elem_of_filter.
    apply Hu, H. by apply elem_of_pred_list.
Qed.

Lemma waiting_cons G done v :
  0 < length (waiting G done v) → ∃ u, nx.edge G u v ∧ u ∉ done.
Proof.
  unfold waiting. intros H.
  destruct (filter _ _) as [|u l] eqn:E; [simpl in H; lia|].
  assert (u ∈ filter (λ u, u ∉ done) (nx.pred_list G v)) as Hu
    by (rewrite E; left).
  apply list_elem_of_filter in Hu as [Hu Hin].
  exists u. split; [by apply elem_of_pred_list|done].
Qed.

(** ** Kahn's algorithm *)

(** One pass over the children [cs] of a node, when the counter of each
    child [c] is [k c]. *)
Lemma visit_children (k : string → Z) cs (indeg : gmap string Z) zero :
  NoDup cs →
  (∀ c, c ∈ cs → indeg !! c = Some (k c)) →
  ∃ indeg',
    for_each nx.visit_child cs (indeg, zero)
      = Returns (indeg', zero ++ filter (λ c, k c = 1%Z) cs) ∧
    ∀ v, indeg' !! v =
           if decide (v ∈ cs)
           then (if decide (k v = 1%Z) then None else Some (k v - 1)%Z)
           else indeg !! v.
Proof.
  intros Hnd. revert indeg zero.
  induction Hnd as [|c cs Hc Hnd IH]; intros indeg zero Hk.
  - exists indeg. rewrite app_nil_r. split; [done|].
    intros v. rewrite decide_False; [done|]. apply not_elem_of_nil.
  - simpl. rewrite (Hk c) by left. simpl.
    rewrite filter_cons.
    destruct (decide (k c = 1%Z)) as [E|E].
    + rewrite bool_decide_true by lia. simpl.
      destruct (IH (delete c indeg) (zero ++ [c])) as (indeg' & Hrun & Hlk).
      { intros c' Hc'. rewrite lookup_delete_ne by set_solver.
        apply Hk. by right. }
      exists indeg'. rewrite Hrun, <-app_assoc. split; [done|].
      intros v. rewrite Hlk, lookup_delete.
      repeat case_decide; subst; try done; set_solver.
    + rewrite bool_decide_false by lia. simpl.
      destruct (IH (<[c := (k c - 1)%Z]> indeg) zero) as (indeg' & Hrun & Hlk).
      { intros c' Hc'. rewrite lookup_insert_ne by set_solver.
        apply Hk. by right. }
      exists indeg'. rewrite Hrun. split; [done|].
      intros v. rewrite Hlk, lookup_insert.
      repeat case_decide; subst; try done; set_solver.
Qed.

Lemma visit_node_inv G done n queue indeg zero :
  nx.wf G → kahn_inv G done (n :: queue ++ zero) indeg →
  ∃ indeg' zero',
    nx.visit_node G (indeg, zero) n = Returns (indeg', zero') ∧
    kahn_inv G (done ++ [n]) (queue ++ zero') indeg'.
Proof.
  intros (HnodesG & HedgesG & Hends) [Hnd Hnodes Hpreds Horder Hcount Hnone].
  assert (n ∉ done) as Hn_done.
  { apply NoDup_app in Hnd as (_ & Hd & _). intros Hin.
    apply (Hd n Hin). left. }
  assert (∀ c, nx.edge G n c → c ∉ done ++ n :: queue ++ zero) as Hfresh.
  { intros c Hc Hin. by apply Hn_done, (Hpreds c n). }
  set (k := λ c, Z.of_nat (length (waiting G done c))).
  destruct (visit_children k (nx.succ_list G n) indeg zero)
    as (indeg' & Hrun & Hlk).
  { by apply NoDup_succ_list. }
  { intros c Hc%elem_of_succ_list. apply Hcount; [|by apply Hfresh].
    by apply (Hends n c). }
  exists indeg', (zero ++ filter (λ c, k c = 1%Z) (nx.succ_list G n)).
  split.
  { unfold nx.visit_node. rewrite bool_decide_true; [done|].
    apply Hnodes. set_solver. }
  set (new := filter (λ c, k c = 1%Z) (nx.succ_list G n)).
  assert (∀ c, c ∈ new ↔ nx.edge G n c ∧ length (waiting G done c) = 1)
    as Hnew.
  { intros c. unfold new. rewrite list_elem_of_filter, elem_of_succ_list.
    unfold k. split; intros [??]; split; try done; lia. }
  assert ((done ++ [n]) ++ queue ++ zero ++ new
          ≡ₚ (done ++ n :: queue ++ zero) ++ new) as Hperm.
  { rewrite <-!app_assoc. simpl. by rewrite <-!app_assoc. }
  assert (∀ v, v ∈ (done ++ [n]) ++ queue ++ zero ++ new ↔
               v ∈ done ++ n :: queue ++ zero ∨ v ∈ new) as Hmem.
  { intros v. rewrite Hperm. apply elem_of_app. }
  assert (∀ v, length (waiting G (done ++ [n]) v)
               + (if decide (nx.edge G n v) then 1 else 0)
               = length (waiting G done v)) as Hwait.
  { intros v. by apply waiting_snoc. }
  split.
  - rewrite Hperm. apply NoDup_app. split; [done|]. split.
    + intros v Hv [Hv' _]%Hnew. by apply (Hfresh v).
    + by apply NoDup_filter, NoDup_succ_list.
  - intros v [Hv|[Hv _]%Hnew]%Hmem; [by apply Hnodes|].
    by apply (Hends n v).
  - intros v u [Hv|[Hv Hone]%Hnew]%Hmem Hu.
    + apply elem_of_app. left. by apply (Hpreds v).
    + revert u Hu. apply waiting_nil.
      apply length_zero_iff_nil. specialize (Hwait v).
      rewrite decide_True in Hwait by done. lia.
  - intros l1 v l2 u Hsplit Hu.
    assert (done ++ n :: queue ++ zero ++ new = l1 ++ v :: l2) as Hsplit'.
    { etrans; [|exact Hsplit]. by rewrite <-!app_assoc. }
    clear Hsplit.
    replace (done ++ n :: queue ++ zero ++ new)
      with ((done ++ n :: queue ++ zero) ++ new) in Hsplit'
      by (rewrite <-!app_assoc; simpl; by rewrite <-!app_assoc).
    apply app_eq_inv in Hsplit'
      as [(m & Hold & Hl2)|(m & Hl1 & Hnew')].
    + destruct m as [|v' m].
      * (* v is the first of the new nodes *)
        rewrite app_nil_r in Hold. subst l1. simpl in Hl2.
        assert (v ∈ new) as [Hv Hone]%Hnew by (rewrite <-Hl2; left).
        destruct (decide (u = n)) as [->|Hne]; [set_solver|].
        apply elem_of_app. left.
        assert (waiting G (done ++ [n]) v = []) as Hnil.
        { apply length_zero_iff_nil. specialize (Hwait v).
          rewrite decide_True in Hwait by done. lia. }
        pose proof (proj1 (waiting_nil _ _ _) Hnil u Hu). set_solver.
      * simplify_eq/=.
        by apply (Horder l1 v' m u).
    + subst l1. apply elem_of_app.
      assert (v ∈ new) as [Hv Hone]%Hnew.
      { rewrite Hnew'. set_solver. }
      destruct (decide (u = n)) as [->|Hne]; [left; set_solver|].
      left. apply elem_of_app. left.
      assert (waiting G (done ++ [n]) v = []) as Hnil.
      { apply length_zero_iff_nil. specialize (Hwait v).
        rewrite decide_True in Hwait by done. lia. }
      pose proof (proj1 (waiting_nil _ _ _) Hnil u Hu). set_solver.
  - intros v Hv Hnot.
    assert ((v ∉ done ++ n :: queue ++ zero) ∧ (v ∉ new)) as [Hold Hnn].
    { split; intros Hv'; apply Hnot; apply Hmem; auto. }
    destruct (Hcount v Hv Hold) as [Hlook Hpos].
    rewrite Hlk. specialize (Hwait v).
    destruct (decide (v ∈ nx.succ_list G n)) as [Hs%elem_of_succ_list|Hs].
    + rewrite decide_True in Hwait by done.
      assert (length (waiting G done v) ≠ 1) as Hne1.
      { intros E. apply Hnn, Hnew. done. }
      unfold k. rewrite decide_False by lia.
      split; [f_equal; lia|lia].
    + rewrite elem_of_succ_list in Hs.
      rewrite decide_False in Hwait by done.
      rewrite Hlook. split; [do 2 f_equal; lia|lia].
  - intros v Hv. rewrite Hlk.
    destruct (decide (v ∈ nx.succ_list G n)) as [Hs%elem_of_succ_list|Hs].
    + destruct Hv as [[Hv|Hv]%Hmem|Hv].
      * by destruct (Hfresh v Hs).
      * apply Hnew in Hv as [_ Hone]. unfold k.
        rewrite decide_True; [done|lia].
      * destruct Hv. by apply (Hends n v).
    + apply Hnone. destruct Hv as [[Hv|Hv]%Hmem|Hv]; [by left| |by right].
      apply Hnew in Hv as [Hv _]. destruct Hs. by apply elem_of_succ_list.
Qed.

Lemma generation_inv G done gen indeg :
  nx.wf G → kahn_inv G done gen indeg →
  ∃ indeg' zero',
    for_each (nx.visit_node G) gen (indeg, []) = Returns (indeg', zero') ∧
    kahn_inv G (done ++ gen) zero' indeg'.
Proof.
  intros HG Hinv.
  destruct (for_each_returns (nx.visit_node G)
    (λ pre post st, kahn_inv G (done ++ pre) (post ++ st.2) st.1)
    gen (indeg, [])) as ([indeg' zero'] & Hrun & Hfin).
  - simpl. by rewrite !app_nil_r.
  - intros pre x post [indeg1 zero1] -> Hpre. simpl in Hpre.
    destruct (visit_node_inv G (done ++ pre) x post indeg1 zero1 HG Hpre)
      as (indeg2 & zero2 & Hstep & Hpost).
    exists (indeg2, zero2). split; [done|]. simpl.
    by rewrite app_assoc.
  - exists indeg', zero'. split; [done|]. exact Hfin.
Qed.

Lemma NoDup_incl_length (l k : list string) :
  NoDup l → (∀ x, x ∈ l → x ∈ k) → length l ≤ length k.
Proof. intros Hl Hin. by apply submseteq_length, NoDup_submseteq. Qed.

Lemma generations_spec G fuel : ∀ done queue indeg,
  nx.wf G → kahn_inv G done queue indeg →
  length (nx.nodes G) < fuel + length done →
  (∃ l, nx.generations fuel G indeg queue done = Returns l ∧ topo_order G l)
  ∨ (nx.generations fuel G indeg queue done = Raises NetworkXUnfeasible
     ∧ stuck G).
Proof.
  induction fuel as [|fuel IH]; intros done queue indeg HG Hinv Hfuel.
  - pose proof (NoDup_incl_length _ _ (ki_nodup _ _ _ _ Hinv)
                  (ki_nodes _ _ _ _ Hinv)) as Hlen.
    rewrite length_app in Hlen. lia.
  - destruct queue as [|n queue].
    + simpl. case_bool_decide as Hempty.
      * left. exists done. split; [done|]. subst indeg.
        destruct Hinv as [Hnd Hnodes Hpreds Horder Hcount Hnone].
        rewrite app_nil_r in *. split; [done|]. split; [|done].
        intros v. split; [apply Hnodes|]. intros Hv.
        destruct (decide (v ∈ done)) as [|Hnot]; [done|].
        destruct (Hcount v Hv Hnot) as [Hlook _].
        by rewrite lookup_empty in Hlook.
      * right. split; [done|]. by exists done, indeg.
    + destruct (generation_inv G done (n :: queue) indeg HG Hinv)
        as (indeg' & zero' & Hrun & Hinv').
      cbn [nx.generations]. rewrite Hrun. cbn [mbind outcome_bind].
      apply IH; [done|done|].
      rewrite length_app. simpl. lia.
Qed.

Lemma filter_fmap_pair {B} (f : string → B) (P : string * B → Prop)
    `{!∀ x, Decision (P x)} (l : list string) :
  (filter P ((λ v, (v, f v)) <$> l)).*1 = filter (λ v, P (v, f v)) l.
Proof.
  induction l as [|a l IH]; [done|].
  rewrite fmap_cons, !filter_cons.
  destruct (decide (P (a, f a))); [|exact IH].
  rewrite fmap_cons. simpl. f_equal. exact IH.
Qed.

Lemma waiting_start G v : waiting G [] v = nx.pred_list G v.
Proof.
  unfold waiting. induction (nx.pred_list G v) as [|a l IH]; [done|].
  rewrite filter_cons, decide_True by apply not_elem_of_nil. by rewrite IH.
Qed.

Lemma kahn_inv_start G :
  nx.wf G →
  kahn_inv G [] (nx.initial_zero_indegree G) (nx.initial_indegree_map G).
Proof.
  intros (HnodesG & HedgesG & Hends).
  set (deg := λ v, Z.of_nat (length (nx.pred_list G v))).
  pose proof (filter_fmap_pair deg (λ vd, vd.2 = 0%Z) (nx.nodes G)) as Hzero.
  change ((filter _ _).*1) with (nx.initial_zero_indegree G) in Hzero.
  simpl in Hzero.
  assert (∀ v, nx.initial_indegree_map G !! v =
               if decide (v ∈ nx.nodes G ∧ (deg v > 0)%Z)
               then Some (deg v) else None) as Hmap.
  { intros v. unfold nx.initial_indegree_map, nx.in_degree.
    assert (NoDup (filter (λ vd : string * Z, (vd.2 > 0)%Z)
                     ((λ v, (v, deg v)) <$> nx.nodes G)).*1) as Hnd.
    { rewrite (filter_fmap_pair deg (λ vd, (vd.2 > 0)%Z)).
      by apply NoDup_filter. }
    case_decide as Hv.
    - apply elem_of_list_to_map_1; [done|].
      apply list_elem_of_filter. split; [by destruct Hv|].
      apply list_elem_of_fmap. exists v. by destruct Hv.
    - apply not_elem_of_list_to_map_1.
      rewrite (filter_fmap_pair deg (λ vd, (vd.2 > 0)%Z)).
      rewrite list_elem_of_filter. simpl. tauto. }
  rewrite Hzero. split; simpl.
  - by apply NoDup_filter.
  - intros v [_ Hv]%list_elem_of_filter. done.
  - intros v u [Hdeg _]%list_elem_of_filter Hu%elem_of_pred_list.
    unfold deg in Hdeg. destruct (nx.pred_list G v); [|simpl in Hdeg; lia].
    by apply not_elem_of_nil in Hu.
  - intros l1 v l2 u Hsplit Hu%elem_of_pred_list.
    assert (v ∈ l1 ++ v :: l2) as Hv by set_solver.
    rewrite <-Hsplit in Hv. apply list_elem_of_filter in Hv as [Hdeg _].
    unfold deg in Hdeg. destruct (nx.pred_list G v); [|simpl in Hdeg; lia].
    by apply not_elem_of_nil in Hu.
  - intros v Hv Hnot. rewrite waiting_start, Hmap.
    assert (deg v ≠ 0%Z) as Hdeg.
    { intros E. apply Hnot, list_elem_of_filter. done. }
    unfold deg in *. rewrite decide_True by (split; [done|lia]).
    split; [done|lia].
  - intros v Hv. rewrite Hmap. apply decide_False. intros [Hin Hdeg].
    destruct Hv as [[Hz _]%list_elem_of_filter|Hv]; [lia|done].
Qed.

(** [topological_sort] either returns a topological order or reports
    that none exists; it neither diverges nor fails otherwise. *)
Lemma topological_sort_spec G :
  nx.wf G →
  (∃ l, nx.topological_sort G = Returns l ∧ topo_order G l)
  ∨ (nx.topological_sort G = Raises NetworkXUnfeasible ∧ stuck G).
Proof.
  intros HG. apply generations_spec; [done|by apply kahn_inv_start|].
  simpl. lia.
Qed.

Lemma walk_app_inv G l1 l2 : walk G (l1 ++ l2) → walk G l1 ∧ walk G l2.
Proof.
  induction l1 as [|a l1 IH]; [done|].
  destruct l1 as [|b l1].
  - simpl. destruct l2; [done|]. intros [_ H]. done.
  - intros [Hab H]. destruct (IH H) as [H1 H2]. done.
Qed.

Lemma walk_tc G a l b : walk G (a :: l ++ [b]) → tc (nx.edge G) a b.
Proof.
  revert a. induction l as [|c l IH]; intros a.
  - intros [H _]. by apply tc_once.
  - intros [H Hw]. eapply tc_l; [exact H|]. by apply IH.
Qed.

Lemma not_NoDup_split (l : list string) :
  ¬ NoDup l → ∃ x l1 l2 l3, l = l1 ++ x :: l2 ++ x :: l3.
Proof.
  induction l as [|a l IH]; intros Hnd.
  - destruct Hnd. constructor.
  - destruct (decide (a ∈ l)) as [Hin|Hnot].
    + apply list_elem_of_split in Hin as (l2 & l3 & ->).
      by exists a, [], l2, l3.
    + destruct IH as (x & l1 & l2 & l3 & ->).
      { intros H. apply Hnd. by constructor. }
      by exists x, (a :: l1), l2, l3.
Qed.

Section cycles.
Context (G : nx.DiGraph) (HG : nx.wf G).

Lemma topo_order_before l u v :
  topo_order G l → tc (nx.edge G) u v →
  ∃ l1 l2, l = l1 ++ v :: l2 ∧ u ∈ l1.
Proof.
  intros (Hnd & Hall & Hord) Htc.
  induction Htc as [x y Hxy|x y z Hxy _ (l1 & l2 & -> & Hy)].
  - assert (y ∈ l) as (l1 & l2 & ->)%list_elem_of_split.
    { apply Hall. destruct HG as (_ & _ & Hends). by apply (Hends x y). }
    exists l1, l2. split; [done|]. by apply (Hord l1 y l2).
  - exists l1, l2. split; [done|].
    apply list_elem_of_split in Hy as (a & b & ->).
    apply elem_of_app. left.
    apply (Hord a y (b ++ z :: l2)); [|done].
    by rewrite <-app_assoc.
Qed.

Lemma topo_order_acyclic l : topo_order G l → nx.acyclic G.
Proof.
  intros Hto [n Hn].
  destruct (topo_order_before l n n Hto Hn) as (l1 & l2 & -> & Hin).
  destruct Hto as (Hnd & _).
  apply NoDup_app in Hnd as (_ & Hd & _). apply (Hd n Hin). left.
Qed.

(** Pigeonhole: if every node of a non-empty set has a predecessor in
    the set, the graph has a cycle. *)
Lemma backward_walk (X : string → Prop) :
  (∀ v, X v → ∃ u, nx.edge G u v ∧ X u) →
  ∀ k v, X v → ∃ w, length w = S k ∧ walk G w ∧ Forall X w.
Proof.
  intros Hpred k. induction k as [|k IH]; intros v Hv.
  - exists [v]. split; [done|]. split; [done|]. by constructor.
  - destruct (IH v Hv) as (w & Hlen & Hw & HX).
    destruct w as [|a w]; [done|].
    destruct (Hpred a) as (u & Hu & HXu); [by inversion HX|].
    exists (u :: a :: w). split; [simpl in *; lia|].
    split; [done|]. by constructor.
Qed.

Lemma closed_set_cyclic (X : string → Prop) v :
  X v → (∀ v, X v → v ∈ nx.nodes G) →
  (∀ v, X v → ∃ u, nx.edge G u v ∧ X u) → nx.cyclic G.
Proof.
  intros Hv Hnodes Hpred.
  destruct (backward_walk X Hpred (length (nx.nodes G)) v Hv)
    as (w & Hlen & Hw & HX).
  destruct (not_NoDup_split w) as (x & l1 & l2 & l3 & ->).
  { intros Hnd.
    pose proof (NoDup_incl_length w (nx.nodes G) Hnd) as Hle.
    rewrite Forall_forall in HX.
    specialize (Hle (λ x Hx, Hnodes x (HX x Hx))). lia. }
  exists x. apply (walk_tc G x l2 x).
  apply walk_app_inv in Hw as [_ Hw].
  replace (x :: l2 ++ x :: l3) with ((x :: l2 ++ [x]) ++ l3) in Hw
    by (simpl; by rewrite <-app_assoc).
  by apply walk_app_inv in Hw as [Hw _].
Qed.

Lemma stuck_cyclic : stuck G → nx.cyclic G.
Proof.
  intros (done & indeg & [Hnd Hnodes Hpreds Horder Hcount Hnone] & Hne).
  rewrite app_nil_r in *.
  assert (∃ v, v ∈ nx.nodes G ∧ v ∉ done) as (v & Hv & Hvd).
  { destruct (map_choose indeg Hne) as (v & d & Hvd).
    exists v. split.
    - destruct (decide (v ∈ nx.nodes G)) as [|Hnot]; [done|].
      rewrite Hnone in Hvd by (by right). done.
    - intros Hin. rewrite Hnone in Hvd by (by left). done. }
  apply (closed_set_cyclic (λ v, v ∈ nx.nodes G ∧ v ∉ done) v);
    [done|by intros ? [??]|].
  intros x [Hx Hxd]. destruct (Hcount x Hx Hxd) as [_ Hpos].
  apply waiting_cons in Hpos as (u & Hu & Hud).
  exists u. split; [done|]. split; [|done].
  destruct HG as (_ & _ & Hends). by apply (Hends u x).
Qed.

Lemma topological_sort_acyclic :
  nx.acyclic G → ∃ l, nx.topological_sort G = Returns l ∧ topo_order G l.
Proof.
  intros Hac. destruct (topological_sort_spec G HG) as [H|[_ Hst]]; [done|].
  destruct Hac. by apply stuck_cyclic.
Qed.

Lemma topological_sort_cyclic :
  nx.cyclic G → nx.topological_sort G = Raises NetworkXUnfeasible.
Proof.
  intros Hc. destruct (topological_sort_spec G HG) as [(l&_&Hto)|[H _]]; [|done].
  by destruct (topo_order_acyclic l Hto).
Qed.

Lemma topological_sort_returns l :
  nx.topological_sort G = Returns l → topo_order G l ∧ nx.acyclic G.
Proof.
  intros Hl. destruct (topological_sort_spec G HG) as [(l'&E&Hto)|[H _]].
  - rewrite Hl in E. injection E as <-. split; [done|].
    by apply (topo_order_acyclic l).
  - congruence.
Qed.

End cycles.

(** ** The longest-path loop *)

Section for_each_append.
Context {A S : Type} (body : S → A → outcome S).

Lemma for_each_app xs ys st :
  for_each body (xs ++ ys) st = (st' ← for_each body xs st; for_each body ys st').
Proof.
  revert st. induction xs as [|x xs IH]; intros st; [done|].
  simpl. destruct (body st x); simpl; [apply IH|done..].
Qed.

End for_each_append.

Lemma for_each_fmap {A B S} (body : S → B → outcome S) (f : A → B) xs st :
  for_each body (f <$> xs) st = for_each (λ st x, body st (f x)) xs st.
Proof.
  revert st. induction xs as [|x xs IH]; intros st; [done|].
  simpl. destruct (body st (f x)); simpl; [apply IH|done..].
Qed.

Lemma relax_node_eq self st x :
  x ∈ nx.nodes (graph self) →
  relax_node self st x
  = for_each (relax x (node_delay_of self x)) (nx.succ_list (graph self) x) st.
Proof.
  intros Hx. unfold relax_node, nx.successors.
  by rewrite bool_decide_true.
Qed.

Lemma longest_paths_flat self topo st :
  (∀ x, x ∈ topo → x ∈ nx.nodes (graph self)) →
  for_each (relax_node self) topo st
  = for_each (relax_edge self) (edges_in_order (graph self) topo) st.
Proof.
  revert st. induction topo as [|x topo IH]; intros st Hin; [done|].
  unfold edges_in_order. rewrite bind_cons, for_each_app.
  cbn [for_each]. rewrite relax_node_eq by (apply Hin; left).
  rewrite for_each_fmap.
  change (for_each (λ st0 s, relax_edge self st0 (x, s)))
    with (for_each (relax x (node_delay_of self x))).
  destruct (for_each (relax x _) _ st); simpl; [|done..].
  apply IH. intros y Hy. apply Hin. by right.
Qed.

Section edge_order.
Context (G : nx.DiGraph) (HG : nx.wf G) (topo : list string)
        (Htopo : topo_order G topo).

Lemma elem_of_edges_in_order u v :
  (u, v) ∈ edges_in_order G topo ↔ nx.edge G u v.
Proof.
  unfold edges_in_order. rewrite list_elem_of_bind. split.
  - intros (x & [s [E Hs]]%list_elem_of_fmap & Hx). simplify_eq.
    by apply elem_of_succ_list.
  - intros Huv. exists u. split.
    + apply list_elem_of_fmap. exists v. split; [done|].
      by apply elem_of_succ_list.
    + apply Htopo. destruct HG as (_ & _ & Hends). by apply (Hends u v).
Qed.

Lemma edges_in_order_split (l : list string) pre x s post :
  (l ≫= λ x, (λ s, (x, s)) <$> nx.succ_list G x) = pre ++ (x, s) :: post →
  ∃ t1 t2, l = t1 ++ x :: t2 ∧ ∀ e, e ∈ pre → e.1 ∈ t1 ∨ e.1 = x.
Proof.
  revert pre. induction l as [|a l IH]; intros pre Hsplit.
  - by destruct pre.
  - rewrite bind_cons in Hsplit.
    apply app_eq_inv in Hsplit as [(m & Hblock & Hm)|(m & Hpre & Hrest)].
    + destruct m as [|e m].
      * rewrite app_nil_r in Hblock. simpl in Hm.
        destruct (IH [] (eq_sym Hm)) as (t1 & t2 & -> & _).
        exists (a :: t1), t2. split; [done|].
        intros e He. subst pre.
        apply list_elem_of_fmap in He as (? & -> & _). simpl. set_solver.
      * simplify_eq/=.
        assert (∀ e', e' ∈ pre ++ (x, s) :: m → e'.1 = a) as Hfst.
        { intros e' He'. rewrite <-Hblock in He'.
          apply list_elem_of_fmap in He' as (? & -> & _). done. }
        assert (x = a) as -> by (apply (Hfst (x, s)); set_solver).
        exists [], l. split; [done|].
        intros e' He'. right. apply Hfst. set_solver.
    + destruct (IH m Hrest) as (t1 & t2 & -> & Hm).
      exists (a :: t1), t2. split; [done|].
      intros e He. subst pre. apply elem_of_app in He as [He|He].
      * apply list_elem_of_fmap in He as (? & -> & _). simpl. set_solver.
      * destruct (Hm e He) as [?|?]; set_solver.
Qed.

(** When the edge [(x, s)] is relaxed, no edge out of [s] has been yet,
    and [s] is not [x]. *)
Lemma edges_in_order_later pre x s post t :
  edges_in_order G topo = pre ++ (x, s) :: post → ((s, t) ∉ pre) ∧ s ≠ x.
Proof.
  intros Hsplit.
  assert (nx.edge G x s) as Hxs.
  { apply elem_of_edges_in_order. rewrite Hsplit. set_solver. }
  destruct (edges_in_order_split topo pre x s post Hsplit)
    as (t1 & t2 & Ht & Hpre).
  destruct Htopo as (Hnd & _ & Hord).
  assert (x ∉ t1) as Hx1.
  { rewrite Ht in Hnd. apply NoDup_app in Hnd as (_ & Hd & _).
    intros Hin. apply (Hd x Hin). left. }
  assert (s ≠ x) as Hne.
  { intros ->. apply Hx1. by apply (Hord t1 x t2 x). }
  split; [|done]. intros Hin.
  destruct (Hpre _ Hin) as [Hs|Hs]; simpl in Hs; [|done].
  apply list_elem_of_split in Hs as (a & b & ->).
  assert (x ∈ a) as Hxa.
  { apply (Hord a s (b ++ x :: t2) x); [|done]. by rewrite Ht, <-app_assoc. }
  apply Hx1. set_solver.
Qed.

End edge_order.

Lemma constant_map_lookup {V} (c : V) (l : list string) v :
  (list_to_map ((λ n, (n, c)) <$> l) : gmap string V) !! v
  = if decide (v ∈ l) then Some c else None.
Proof.
  induction l as [|a l IH]; [done|].
  rewrite fmap_cons, list_to_map_cons. simpl. rewrite lookup_insert, IH.
  repeat case_decide; subst; try done; set_solver.
Qed.

Lemma set_input_distances_lookup self (l : list string)
    (m : gmap string float) v :
  foldl (λ distances node,
           if bool_decide (is_type self "INPUT" node)
           then <[node := 0%float]> distances else distances) m l !! v
  = if decide (v ∈ l ∧ is_type self "INPUT" v) then Some 0%float else m !! v.
Proof.
  revert m. induction l as [|a l IH]; intros m.
  - cbn [foldl]. case_decide as H; [|done].
    destruct H as [H _]. by apply not_elem_of_nil in H.
  - cbn [foldl]. rewrite IH. case_bool_decide.
    + rewrite lookup_insert. repeat case_decide; subst; try done; set_solver.
    + repeat case_decide; subst; try done; set_solver.
Qed.

Lemma start_distances_lookup self v :
  start_distances self !! v =
  if decide (v ∈ nx.nodes (graph self))
  then Some (if decide (is_type self "INPUT" v) then 0%float else neg_infinity)
  else None.
Proof.
  unfold start_distances, set_input_distances, initial_distances.
  rewrite set_input_distances_lookup, constant_map_lookup.
  repeat case_decide; try done; tauto.
Qed.

Lemma node_delay_nonneg self n :
  nonneg_delays self → nonneg (node_delay_of self n).
Proof.
  intros Hd. unfold node_delay_of.
  destruct (delays self !! _) as [d|] eqn:E; simpl; [by eapply Hd|].
  reflexivity.
Qed.

Section dp.
Context (self : DigitalCircuit).
Local Abbreviation G := (graph self).
Local Abbreviation delay := (node_delay_of self).
Context (HG : nx.wf G) (topo : list string) (Htopo : topo_order G topo).

Lemma dp_inv_start :
  dp_inv self [] (start_distances self) (initial_predecessors G).
Proof.
  split.
  - intros v Hv. unfold initial_predecessors.
    rewrite start_distances_lookup, constant_map_lookup.
    repeat case_decide; try done; split; by eexists.
  - done.
  - intros v u. unfold initial_predecessors.
    rewrite constant_map_lookup. by case_decide.
  - intros v dv. rewrite start_distances_lookup.
    case_decide as Hv; [|done]. case_decide as Hin; intros [= <-]; [|by left].
    right. by exists v.
  - intros _ v dv. rewrite start_distances_lookup.
    case_decide as Hv; [|done]. case_decide as Hin; intros [= <-]; [|by left].
    by right.
  - intros _ v Hv Hin. rewrite start_distances_lookup.
    rewrite (decide_True (P:=v ∈ _)) by done.
    rewrite decide_True by done. by eexists.
  - intros _ u v du Hin. by apply not_elem_of_nil in Hin.
Qed.

Lemma relax_edge_inv pre x s post dist pred :
  edges_in_order G topo = pre ++ (x, s) :: post →
  dp_inv self pre dist pred →
  ∃ dist' pred',
    relax_edge self (dist, pred) (x, s) = Returns (dist', pred') ∧
    dp_inv self (pre ++ [(x, s)]) dist' pred'.
Proof.
  intros Hsplit [Hdom Hinit Hlink Hreach Hsign Hinputs Hcomplete].
  assert (nx.edge G x s) as Hxs.
  { apply (elem_of_edges_in_order G HG topo Htopo).
    rewrite Hsplit. set_solver. }
  assert (x ∈ nx.nodes G ∧ s ∈ nx.nodes G) as [Hx Hs].
  { destruct HG as (_ & _ & Hends). by apply Hends. }
  assert (s ≠ x) as Hne
    by apply (edges_in_order_later G HG topo Htopo pre x s post x Hsplit).
  assert (∀ t, (s, t) ∉ pre) as Hlater.
  { intros t. by apply (edges_in_order_later G HG topo Htopo pre x s post t). }
  destruct (Hdom x Hx) as [[dx Hdx] _].
  destruct (Hdom s Hs) as [[ds Hds] _].
  unfold relax_edge, relax. simpl. unfold getitem. rewrite Hdx, Hds. simpl.
  destruct (ds <? dx + delay x)%float eqn:Hlt.
  - (* the distance of [s] advances *)
    assert (dx ≠ neg_infinity) as Hfin.
    { intros ->. by rewrite Float.ltb_neg_infinity_add in Hlt. }
    assert (nonneg_delays self → nonneg (dx + delay x)) as Hnew.
    { intros Hd. destruct (Hsign Hd x dx Hdx) as [?|Hnn]; [done|].
      apply Float.add_nonneg; [done|]. by apply node_delay_nonneg. }
    eexists _, _. split; [done|]. split.
    + intros v Hv. rewrite !lookup_insert.
      case_decide; [split; by eexists|by apply Hdom].
    + intros v. rewrite !lookup_insert. case_decide; [done|]. apply Hinit.
    + intros v u. rewrite lookup_insert. case_decide as Hv.
      * intros [= <-]. subst v. split; [set_solver|].
        exists dx, ds. rewrite lookup_insert_ne by done.
        rewrite lookup_insert_eq. done.
      * intros Hp. destruct (Hlink v u Hp) as (Hin & du & y & Hdu & Hdv & Hy).
        split; [set_solver|]. exists du, y.
        rewrite !lookup_insert_ne; [done|done|].
        intros <-. by apply (Hlater v).
    + intros v dv. rewrite lookup_insert. case_decide as Hv.
      * intros [= <-]. subst v. right.
        destruct (Hreach x dx Hdx) as [?|(i & Hi & Hin & Hrtc)]; [done|].
        exists i. split; [done|]. split; [done|].
        eapply rtc_r; [exact Hrtc|exact Hxs].
      * apply Hreach.
    + intros Hd v dv. rewrite lookup_insert. case_decide as Hv.
      * intros [= <-]. right. by apply Hnew.
      * by apply Hsign.
    + intros Hd v Hv Hin. rewrite lookup_insert. case_decide.
      * eexists. split; [done|]. by apply Hnew.
      * by apply Hinputs.
    + intros Hd u v du [Hin|Hin%list_elem_of_singleton]%elem_of_app.
      * rewrite lookup_insert_ne by (intros <-; by apply (Hlater v)).
        intros Hdu Hnn. rewrite lookup_insert. case_decide.
        -- eexists. split; [done|]. by apply Hnew.
        -- by apply (Hcomplete Hd u v du).
      * simplify_eq. intros _ _. rewrite lookup_insert_eq.
        eexists. split; [done|]. by apply Hnew.
  - (* nothing changes *)
    exists dist, pred. split; [done|]. split; try done.
    + intros v u Hp. destruct (Hlink v u Hp) as (Hin & H).
      split; [set_solver|done].
    + intros Hd u v du [Hin|Hin%list_elem_of_singleton]%elem_of_app.
      * by apply Hcomplete.
      * simplify_eq. intros Hdu Hnn. simplify_eq.
        exists ds. split; [done|].
        destruct (Hsign Hd s ds Hds) as [->|?]; [|done].
        rewrite Float.neg_infinity_ltb_nonneg in Hlt; [done|].
        apply Float.add_nonneg; [done|]. by apply node_delay_nonneg.
Qed.

Lemma longest_paths_inv :
  ∃ dist pred,
    longest_paths self topo = Returns (dist, pred) ∧
    dp_inv self (edges_in_order G topo) dist pred.
Proof.
  unfold longest_paths. rewrite longest_paths_flat
    by (intros x Hx; by apply Htopo).
  destruct (for_each_returns (relax_edge self)
    (λ pre post st, dp_inv self pre st.1 st.2)
    (edges_in_order G topo)
    (start_distances self, initial_predecessors G))
    as ([dist pred] & Hrun & Hfin).
  - apply dp_inv_start.
  - intros pre [x s] post [dist pred] Hsplit Hpre.
    destruct (relax_edge_inv pre x s post dist pred Hsplit Hpre)
      as (dist' & pred' & Hstep & Hpost).
    by exists (dist', pred').
  - by exists dist, pred.
Qed.

End dp.

(** ** Selecting the end node *)

Lemma bind_Returns {A B} (a : A) (k : A → outcome B) :
  (Returns a ≫= k) = k a.
Proof. done. Qed.

Lemma getitem_Some {V} (d : gmap string V) k v :
  d !! k = Some v → getitem d k = Returns v.
Proof. unfold getitem. by intros ->. Qed.

Lemma max_loop_spec (dist : gmap string float) items maxitem maxval :
  dist !! maxitem = Some maxval →
  (∀ i, i ∈ items → is_Some (dist !! i)) →
  ∃ e ve,
    max_loop (getitem dist) items maxitem maxval = Returns e ∧
    e ∈ maxitem :: items ∧ dist !! e = Some ve ∧
    ((∀ i d, i ∈ maxitem :: items → dist !! i = Some d →
        d = neg_infinity ∨ nonneg d) →
     (∃ i d, i ∈ maxitem :: items ∧ dist !! i = Some d ∧ nonneg d) →
     nonneg ve).
Proof.
  revert maxitem maxval.
  induction items as [|item items IH]; intros maxitem maxval Hmax Hdom.
  - exists maxitem, maxval. split; [done|]. split; [left|]. split; [done|].
    intros _ (i & d & Hi%list_elem_of_singleton & Hd & Hnn). by simplify_eq.
  - destruct (Hdom item) as [val Hval]; [left|].
    cbn [max_loop]. rewrite (getitem_Some _ _ _ Hval), bind_Returns.
    destruct (maxval <? val)%float eqn:Hlt.
    + destruct (IH item val Hval) as (e & ve & Hrun & He & Hve & Hgood).
      { intros i Hi. apply Hdom. by right. }
      exists e, ve. split; [exact Hrun|]. split; [set_solver|]. split; [done|].
      intros Hsign (i & d & Hi & Hd & Hnn). apply Hgood.
      * intros i' d' Hi'. apply Hsign. set_solver.
      * destruct (Hsign item val) as [->|Hv]; [set_solver|done| |].
        { by rewrite Float.ltb_neg_infinity in Hlt. }
        exists item, val. split; [left|done].
    + destruct (IH maxitem maxval Hmax) as (e & ve & Hrun & He & Hve & Hgood).
      { intros i Hi. apply Hdom. by right. }
      exists e, ve. split; [exact Hrun|]. split; [set_solver|]. split; [done|].
      intros Hsign (i & d & Hi & Hd & Hnn). apply Hgood.
      * intros i' d' Hi'. apply Hsign. set_solver.
      * destruct (decide (i = item)) as [->|Hne].
        -- simplify_eq. exists maxitem, maxval. split; [left|].
           split; [done|].
           destruct (Hsign maxitem maxval) as [->|Hv]; [left|done| |done].
           by rewrite Float.neg_infinity_ltb_nonneg in Hlt.
        -- exists i, d. split; [set_solver|done].
Qed.

Lemma py_max_spec (dist : gmap string float) items :
  items ≠ [] →
  (∀ i, i ∈ items → is_Some (dist !! i)) →
  ∃ e ve,
    py_max items (getitem dist) = Returns e ∧
    e ∈ items ∧ dist !! e = Some ve ∧
    ((∀ i d, i ∈ items → dist !! i = Some d →
        d = neg_infinity ∨ nonneg d) →
     (∃ i d, i ∈ items ∧ dist !! i = Some d ∧ nonneg d) →
     nonneg ve).
Proof.
  intros Hne Hdom. destruct items as [|item items]; [done|].
  destruct (Hdom item) as [val Hval]; [left|].
  cbn [py_max]. rewrite (getitem_Some _ _ _ Hval), bind_Returns.
  apply max_loop_spec; [done|]. intros i Hi. apply Hdom. by right.
Qed.

(** ** Walking back along the predecessors *)

Lemma walk_back_chain pred l : ∀ c fuel acc,
  pred_chain pred c l → length l < fuel →
  walk_back fuel pred (Some c) acc = Returns (acc ++ c :: l).
Proof.
  induction l as [|u l IH]; intros c fuel acc Hchain Hfuel;
    (destruct fuel as [|fuel]; [simpl in Hfuel; lia|]).
  - simpl in Hchain. cbn [walk_back].
    rewrite (getitem_Some _ _ _ Hchain), bind_Returns. by destruct fuel.
  - destruct Hchain as [Hc Hchain]. cbn [walk_back].
    rewrite (getitem_Some _ _ _ Hc), bind_Returns.
    rewrite (IH u fuel (acc ++ [c]) Hchain) by (simpl in Hfuel; lia).
    by rewrite <-app_assoc.
Qed.

Lemma pred_chain_last pred l : ∀ c,
  pred_chain pred c l →
  ∃ x, last (c :: l) = Some x ∧ pred !! x = Some None.
Proof.
  induction l as [|u l IH]; intros c Hchain.
  - by exists c.
  - destruct Hchain as [_ Hchain]. destruct (IH u Hchain) as (x & Hx & Hp).
    by exists x.
Qed.

Section walks.
Context (G : nx.DiGraph) (HG : nx.wf G) (Hacyclic : nx.acyclic G).

Lemma acyclic_walk_NoDup w : walk G w → NoDup w.
Proof.
  intros Hw. destruct (decide (NoDup w)) as [|Hnd]; [done|].
  destruct (not_NoDup_split w Hnd) as (x & l1 & l2 & l3 & ->).
  destruct Hacyclic. exists x. apply (walk_tc G x l2 x).
  apply walk_app_inv in Hw as [_ Hw].
  replace (x :: l2 ++ x :: l3) with ((x :: l2 ++ [x]) ++ l3) in Hw
    by (simpl; by rewrite <-app_assoc).
  by apply walk_app_inv in Hw as [Hw _].
Qed.

Lemma acyclic_walk_length w :
  walk G w → (∀ x, x ∈ w → x ∈ nx.nodes G) → length w ≤ length (nx.nodes G).
Proof.
  intros Hw Hin. apply NoDup_incl_length; [|done].
  by apply acyclic_walk_NoDup.
Qed.

Lemma pred_chain_exists (pred : gmap string (option string)) :
  (∀ v, v ∈ nx.nodes G → is_Some (pred !! v)) →
  (∀ v u, pred !! v = Some (Some u) → nx.edge G u v) →
  ∀ k c w,
    walk G (c :: w) → (∀ x, x ∈ c :: w → x ∈ nx.nodes G) →
    length (nx.nodes G) < k + length (c :: w) →
    ∃ l, pred_chain pred c l ∧ walk G (reverse l ++ c :: w) ∧
         ∀ x, x ∈ l → x ∈ nx.nodes G.
Proof.
  intros Hdom Hedge k.
  induction k as [|k IH]; intros c w Hw Hin Hlen.
  - pose proof (acyclic_walk_length (c :: w) Hw Hin). lia.
  - destruct (Hdom c) as [[u|] Hc]; [apply Hin; left| |]; last first.
    { exists []. split; [done|]. split; [done|].
      intros x Hx. by apply not_elem_of_nil in Hx. }
    assert (nx.edge G u c) as Huc by by apply Hedge.
    assert (u ∈ nx.nodes G) as Hu.
    { destruct HG as (_ & _ & Hends). by apply (Hends u c). }
    destruct (IH u (c :: w)) as (l & Hchain & Hwalk & Hl).
    + done.
    + intros x [->|Hx]%elem_of_cons; [done|by apply Hin].
    + simpl in *. lia.
    + exists (u :: l). split; [done|]. split.
      * by rewrite reverse_cons, <-app_assoc.
      * intros x [->|Hx]%elem_of_cons; [done|by apply Hl].
Qed.

End walks.

(** ** The analysis of an acyclic circuit *)

Section analysis.
Context (self : DigitalCircuit).
Local Abbreviation G := (graph self).
Context (HG : nx.wf G).

Lemma elem_of_output_nodes o :
  o ∈ output_nodes self ↔ o ∈ nx.nodes G ∧ is_type self "OUTPUT" o.
Proof. unfold output_nodes. rewrite list_elem_of_filter. tauto. Qed.

Lemma find_critical_path_analysis :
  nx.acyclic G → output_nodes self ≠ [] →
  ∃ topo dist pred end_node chain total,
    analysis self topo dist pred end_node chain total.
Proof.
  intros Hacyclic Hout.
  destruct (topological_sort_acyclic G HG Hacyclic) as (topo & Htopo & Hord).
  destruct (longest_paths_inv self HG topo Hord)
    as (dist & pred & Hpaths & Hinv).
  destruct (py_max_spec dist (output_nodes self) Hout)
    as (end_node & total & Hsel & Hend & Htotal & Hbest).
  { intros i [Hi _]%elem_of_output_nodes. by apply (dp_dom _ _ _ _ Hinv). }
  assert (end_node ∈ nx.nodes G) as Hnode by by apply elem_of_output_nodes.
  destruct (pred_chain_exists G HG Hacyclic pred) with
    (k := length (nx.nodes G)) (c := end_node) (w := @nil string)
    as (chain & Hchain & Hwalk & Hnodes).
  { intros v Hv. by apply (dp_dom _ _ _ _ Hinv). }
  { intros v u Hp. destruct (dp_link _ _ _ _ Hinv v u Hp) as [Hin _].
    by apply (elem_of_edges_in_order G HG topo Hord). }
  { done. }
  { by intros x ->%list_elem_of_singleton. }
  { simpl. lia. }
  rewrite <-reverse_cons in Hwalk.
  assert (length chain < length (nx.nodes G)) as Hlen.
  { pose proof (acyclic_walk_length G Hacyclic _ Hwalk) as Hle.
    rewrite length_reverse in Hle. simpl in Hle. apply Hle.
    intros x [->|Hx]%elem_of_reverse%elem_of_cons; [done|by apply Hnodes]. }
  exists topo, dist, pred, end_node, chain, total.
  split; try done.
  - intros Hd. apply Hbest. intros i d _. by apply (dp_sign _ _ _ _ Hinv).
  - unfold find_critical_path, mbind, gets, lift. simpl. rewrite Htopo.
    unfold critical_path_from, select_end_node.
    rewrite Hpaths, bind_Returns, Hsel, bind_Returns.
    rewrite (walk_back_chain pred chain end_node _ [] Hchain Hlen).
    rewrite bind_Returns, (getitem_Some _ _ _ Htotal), bind_Returns. done.
Qed.

(** Every node that an INPUT node reaches ends with a non-negative
    distance. *)
Lemma reachable_nonneg topo dist pred v :
  topo_order G topo → dp_inv self (edges_in_order G topo) dist pred →
  nonneg_delays self → reachable self v →
  ∃ d, dist !! v = Some d ∧ nonneg d.
Proof.
  intros Hord Hinv Hd (i & Hi & Hin & Hrtc).
  revert v Hrtc. apply rtc_ind_r.
  - by apply (dp_inputs _ _ _ _ Hinv).
  - intros y z Hiy Hyz (dy & Hdy & Hnn).
    apply (dp_complete _ _ _ _ Hinv Hd y z dy); [|done..].
    by apply (elem_of_edges_in_order G HG topo Hord).
Qed.

End analysis.

(** ** Graphs built with [add_node] and [add_edge] are well formed *)

Lemma wf_empty : nx.wf nx.empty.
Proof.
  split; [constructor|]. split; [constructor|].
  intros u v Huv. by apply not_elem_of_nil in Huv.
Qed.

Lemma wf_add_node n G : nx.wf G → nx.wf (nx.add_node n G).
Proof.
  intros (Hn & He & Hends). unfold nx.add_node.
  case_bool_decide as Hin; [done|]. simpl.
  split; [|split; [done|]].
  - apply NoDup_app. split; [done|]. split; [|apply NoDup_singleton].
    intros x Hx ->%list_elem_of_singleton. done.
  - intros u v Huv. destruct (Hends u v Huv). set_solver.
Qed.

Lemma wf_add_edge u v G : nx.wf G → nx.wf (nx.add_edge u v G).
Proof.
  intros HG. unfold nx.add_edge.
  pose proof (wf_add_node v _ (wf_add_node u G HG)) as (Hn & He & Hends).
  assert (u ∈ nx.nodes (nx.add_node v (nx.add_node u G)) ∧
          v ∈ nx.nodes (nx.add_node v (nx.add_node u G))) as [Hu Hv].
  { unfold nx.add_node. repeat case_bool_decide; simpl in *; set_solver. }
  case_bool_decide as Hin; [done|]. simpl.
  split; [done|]. split.
  - apply NoDup_app. split; [done|]. split; [|apply NoDup_singleton].
    intros x Hx ->%list_elem_of_singleton. done.
  - intros a b [Hab|Hab%list_elem_of_singleton]%elem_of_app.
    + by apply Hends.
    + by simplify_eq.
Qed.

(** [parse_circuit] keeps the graph well formed, and builds the chain
    of the examples from its four lines. *)
Lemma modify_then_state {A} f (k : unit → M A) self :
  (mbind (modify f) k self).1.2 = (k tt (f self)).1.2.
Proof. unfold mbind, modify. by destruct (k tt (f self)) as [[r st] out]. Qed.

Lemma add_component_wf node_type node_id input_nodes self :
  nx.wf (graph self) →
  nx.wf (graph (add_component node_type node_id input_nodes self).1.2).
Proof.
  intros HG. unfold add_component. rewrite modify_then_state.
  pose proof (wf_add_node node_id _ HG) as HG'.
  set (self' := {| delays := delays self;
                   graph := nx.add_node node_id (graph self);
                   node_types := <[node_id:=node_type]> (node_types self) |}).
  change (nx.wf (graph self')) in HG'. clearbody self'. clear HG.
  revert self' HG'.
  induction input_nodes as [|i inputs IH]; intros self' HG'; [done|].
  cbn [mfor]. rewrite modify_then_state.
  apply IH. simpl. by apply wf_add_edge.
Qed.

Lemma chain_parsed :
  (( _ ⇐ add_component "INPUT" "I1" [];;
     _ ⇐ add_component "ADD" "A1" ["I1"];;
     _ ⇐ add_component "ADD" "A2" ["A1"];;
     add_component "OUTPUT" "O1" ["A2"]) init).1.2 = Examples.chain.
Proof. vm_compute. reflexivity. Qed.

(** ** What the method leaves behind *)

Lemma find_critical_path_state self : (find_critical_path self).1.2 = self.
Proof.
  unfold find_critical_path, mbind, gets, print, mret, lift. simpl.
  destruct (nx.topological_sort (graph self)) as [topo|[]|]; try done.
Qed.

Lemma find_critical_path_parts self r :
  (find_critical_path self).1.1 = Returns r ∧ (find_critical_path self).2 = [] →
  find_critical_path self = (Returns r, self, []).
Proof.
  pose proof (find_critical_path_state self) as Hst.
  destruct (find_critical_path self) as [[o st] out]. simpl in *.
  by intros [-> ->]; subst.
Qed.

Lemma find_critical_path_cases self :
  nx.wf (graph self) →
  (nx.cyclic (graph self) ∧
   find_critical_path self
   = (Returns ([], 0%float), self, ["Error: Circuit contains cycles"]))
  ∨ (nx.acyclic (graph self) ∧ output_nodes self = [] ∧
     find_critical_path self = (Raises ValueError, self, []))
  ∨ (nx.acyclic (graph self) ∧
     ∃ topo dist pred end_node chain total,
       analysis self topo dist pred end_node chain total).
Proof.
  intros HG.
  destruct (topological_sort_spec _ HG) as [(topo & Htopo & Hord)|[Hun Hst]].
  - pose proof (topo_order_acyclic _ HG topo Hord) as Hacyclic.
    right. destruct (output_nodes self) as [|o os] eqn:Hout.
    + left. split; [done|]. split; [done|].
      destruct (longest_paths_inv self HG topo Hord)
        as (dist & pred & Hpaths & _).
      unfold find_critical_path, mbind, gets, lift. simpl. rewrite Htopo.
      unfold critical_path_from, select_end_node.
      rewrite Hpaths, bind_Returns, Hout. done.
    + right. split; [done|].
      apply find_critical_path_analysis; [done|done|]. by rewrite Hout.
  - left. split; [by apply stuck_cyclic|].
    unfold find_critical_path, mbind, gets, print, mret, lift. simpl.
    by rewrite Hun.
Qed.

(** ** The sum along the chain of predecessors *)

Lemma chain_sum self topo dist pred :
  dp_inv self (edges_in_order (graph self) topo) dist pred →
  nonneg_delays self →
  ∀ l v dv, pred_chain pred v l → dist !! v = Some dv → nonneg dv →
    sum_delays self (reverse l) 0%float = dv.
Proof.
  intros Hinv Hd. induction l as [|u l IH]; intros v dv Hchain Hv Hnn.
  - simpl in Hchain. rewrite (dp_init _ _ _ _ Hinv v Hchain) in Hv.
    rewrite start_distances_lookup in Hv.
    case_decide; [|done]. case_decide; simplify_eq; [done|].
    by apply Float.nonneg_not_neg_infinity in Hnn.
  - destruct Hchain as [Hp Hchain].
    destruct (dp_link _ _ _ _ Hinv v u Hp) as (_ & du & y & Hdu & Hdv & Hy).
    rewrite Hv in Hdv. injection Hdv as ->.
    rewrite reverse_cons. unfold sum_delays. rewrite foldl_snoc.
    fold (sum_delays self (reverse l) 0%float).
    rewrite (IH u du Hchain Hdu); [done|].
    destruct (dp_sign _ _ _ _ Hinv Hd u du Hdu) as [->|?]; [|done].
    by rewrite Float.ltb_neg_infinity_add in Hy.
Qed.

Lemma default_delays_nonneg t d :
  default_delays !! t = Some d → nonneg d.
Proof.
  unfold default_delays. rewrite !lookup_insert, lookup_empty.
  repeat case_decide; intros [= <-]; reflexivity.
Qed.

Ltac wf_built := repeat first [apply wf_add_edge | apply wf_add_node];
                 apply wf_empty.

Ltac acyclic_by_sort :=
  match goal with
  | |- nx.acyclic ?G =>
      let l := eval vm_compute in (nx.topological_sort G) in
      match l with
      | Returns ?t =>
          apply (topological_sort_returns G ltac:(wf_built) t);
          vm_compute; reflexivity
      end
  end.

(** ** The stated properties *)

(** C1.  On an acyclic graph with at least one INPUT node and at least one
    OUTPUT node, [find_critical_path] terminates and returns a path: its
    first node has predecessor [None], its last node is the OUTPUT node
    that [max] selected, and consecutive nodes are joined by an edge of the
    graph. *)
Theorem find_critical_path_acyclic self :
  nx.wf (graph self) → nx.acyclic (graph self) →
  (∃ i, i ∈ nx.nodes (graph self) ∧ is_type self "INPUT" i) →
  (∃ o, o ∈ nx.nodes (graph self) ∧ is_type self "OUTPUT" o) →
  ∃ topo_sort distances predecessors end_node path total,
    nx.topological_sort (graph self) = Returns topo_sort ∧
    longest_paths self topo_sort = Returns (distances, predecessors) ∧
    select_end_node self distances = Returns end_node ∧
    find_critical_path self = (Returns (path, total), self, []) ∧
    (∃ first, head path = Some first ∧ predecessors !! first = Some None) ∧
    last path = Some end_node ∧
    is_type self "OUTPUT" end_node ∧
    walk (graph self) path.
Proof.
  intros HG Hacyclic _ (o & Ho).
  destruct (find_critical_path_analysis self HG Hacyclic)
    as (topo & dist & pred & end_node & chain & total & Han).
  { intros Hnil. apply (elem_of_output_nodes self) in Ho.
    rewrite Hnil in Ho. by apply not_elem_of_nil in Ho. }
  destruct Han as [Htopo Hord Hpaths Hinv Hsel Hout Htotal Hbest Hchain
                   Hwalk Hres].
  exists topo, dist, pred, end_node, (reverse (end_node :: chain)), total.
  repeat (split; [done|]). split; [|split; [|split; [|done]]].
  - rewrite head_reverse. by apply pred_chain_last.
  - by rewrite last_reverse.
  - by apply (elem_of_output_nodes self) in Hout as [_ ?].
Qed.

Lemma find_critical_path_acyclic_witness :
  ∃ topo_sort distances predecessors end_node path total,
    nx.topological_sort (graph Examples.chain) = Returns topo_sort ∧
    longest_paths Examples.chain topo_sort
      = Returns (distances, predecessors) ∧
    select_end_node Examples.chain distances = Returns end_node ∧
    find_critical_path Examples.chain
      = (Returns (path, total), Examples.chain, []) ∧
    (∃ first, head path = Some first ∧ predecessors !! first = Some None) ∧
    last path = Some end_node ∧
    is_type Examples.chain "OUTPUT" end_node ∧
    walk (graph Examples.chain) path.
Proof.
  apply (find_critical_path_acyclic Examples.chain).
  - wf_built.
  - acyclic_by_sort.
  - exists "I1". split; [vm_compute; set_solver|reflexivity].
  - exists "O1". split; [vm_compute; set_solver|reflexivity].
Defined.

(** C2.  On a graph with a directed cycle, [topological_sort] raises
    [NetworkXUnfeasible]; [find_critical_path] catches it, prints the
    error line and returns the empty path with total delay [0.0].  In
    particular the returned path is never non-empty. *)
Theorem find_critical_path_cyclic self :
  nx.wf (graph self) → nx.cyclic (graph self) →
  nx.topological_sort (graph self) = Raises NetworkXUnfeasible ∧
  find_critical_path self
  = (Returns ([], 0%float), self, ["Error: Circuit contains cycles"]).
Proof.
  intros HG Hcyclic.
  pose proof (topological_sort_cyclic _ HG Hcyclic) as Hun.
  split; [done|].
  unfold find_critical_path, mbind, gets, print, mret, lift. simpl.
  by rewrite Hun.
Qed.

Lemma loop_cyclic : nx.cyclic (graph Examples.loop).
Proof.
  exists "A". apply tc_l with "B"; [|apply tc_once];
    unfold nx.edge; vm_compute; set_solver.
Qed.

Lemma find_critical_path_cyclic_witness :
  nx.topological_sort (graph Examples.loop) = Raises NetworkXUnfeasible ∧
  find_critical_path Examples.loop
  = (Returns ([], 0%float), Examples.loop, ["Error: Circuit contains cycles"]).
Proof.
  apply (find_critical_path_cyclic Examples.loop).
  - wf_built.
  - apply loop_cyclic.
Defined.

(** C3 does not hold as stated: for the adder without inputs feeding
    the only output, the returned path is [["O1"]] with total [-inf],
    while [calculate_path_delay] of that path is [0.0]. *)
Lemma path_delay_disagrees :
  nx.wf (graph Examples.floating) ∧ ¬ path_delay_agrees Examples.floating.
Proof.
  split; [wf_built|]. intros H.
  destruct (H ["O1"] neg_infinity []) as (d & Hd & Heq).
  - vm_compute. reflexivity.
  - vm_compute in Hd. injection Hd as <-. vm_compute in Heq. discriminate.
Qed.

(** C3, amended.  When the delays are non-negative and OUTPUT has
    delay zero (as in the default table), and the returned total is not
    [-inf] (the end node is reached from an INPUT node, or the graph is
    cyclic and the total is [0.0]), [calculate_path_delay] of the returned
    path [==] the returned total. *)
Theorem path_delay_agrees_reached self path total out :
  nx.wf (graph self) → nonneg_delays self →
  default 0%float (delays self !! "OUTPUT") = 0%float →
  find_critical_path self = (Returns (path, total), self, out) →
  total ≠ neg_infinity →
  ∃ d, calculate_path_delay path self = (Returns d, self, []) ∧
       (d =? total)%float = true.
Proof.
  intros HG Hd Hzero Hrun Hfin.
  exists (sum_delays self path 0%float). split; [done|].
  destruct (find_critical_path_cases self HG)
    as [[_ Hc]|[(_ & _ & Hc)|(_ & topo & dist & pred & e & chain & t & Han)]].
  - rewrite Hc in Hrun. by simplify_eq.
  - rewrite Hc in Hrun. by simplify_eq.
  - destruct Han as [Htopo Hord Hpaths Hinv Hsel Hout Htotal Hbest Hchain
                     Hwalk Hres].
    rewrite Hres in Hrun. simplify_eq.
    destruct (dp_sign _ _ _ _ Hinv Hd e total Htotal) as [?|Hnn]; [done|].
    rewrite reverse_cons. unfold sum_delays. rewrite foldl_snoc.
    fold (sum_delays self (reverse chain) 0%float).
    rewrite (chain_sum self topo dist pred Hinv Hd chain e total) by done.
    apply (elem_of_output_nodes self) in Hout as [_ Htype].
    unfold node_delay_of. rewrite Htype, Hzero.
    apply Float.add_zero_eqb. by apply Float.nonneg_eqb_refl.
Qed.

Lemma path_delay_agrees_reached_witness :
  ∃ d, calculate_path_delay ["I1"; "A1"; "A2"; "O1"] Examples.chain
       = (Returns d, Examples.chain, []) ∧
       (d =? 2)%float = true.
Proof.
  apply (path_delay_agrees_reached Examples.chain _ _ []).
  - wf_built.
  - intros t d. apply default_delays_nonneg.
  - reflexivity.
  - vm_compute. reflexivity.
  - intros H. vm_compute in H. discriminate.
Defined.

(** C4.  On an acyclic graph without any node of type OUTPUT,
    [find_critical_path] fails: [max] is given no item and raises
    [ValueError], which nothing in the method catches.  The error is
    distinct: the method raises it in no other situation. *)
Theorem find_critical_path_no_output self :
  nx.wf (graph self) → nx.acyclic (graph self) →
  (∀ o, o ∈ nx.nodes (graph self) → ¬ is_type self "OUTPUT" o) →
  find_critical_path self = (Raises ValueError, self, []) ∧
  ∀ other, nx.wf (graph other) →
    (find_critical_path other).1.1 = Raises ValueError →
    nx.acyclic (graph other) ∧
    ∀ o, o ∈ nx.nodes (graph other) → ¬ is_type other "OUTPUT" o.
Proof.
  intros HG Hacyclic Hnone. split.
  - destruct (find_critical_path_cases self HG)
      as [[Hc _]|[(_ & _ & Hc)|(_ & topo & dist & pred & e & chain & t & Han)]];
      [done|done|].
    apply an_output, (elem_of_output_nodes self) in Han as [He Ht].
    by destruct (Hnone e He).
  - intros other HG' Hraise.
    destruct (find_critical_path_cases other HG')
      as [[_ Hc]|[(Hac & Hout & _)|(_ & topo & dist & pred & e & chain & t & Han)]].
    + by rewrite Hc in Hraise.
    + split; [done|]. intros o Ho Ht.
      assert (o ∈ output_nodes other) as Hin
        by by apply elem_of_output_nodes.
      rewrite Hout in Hin. by apply not_elem_of_nil in Hin.
    + apply an_result in Han. by rewrite Han in Hraise.
Qed.

Lemma find_critical_path_no_output_witness :
  find_critical_path Examples.no_output
  = (Raises ValueError, Examples.no_output, []) ∧
  ∀ other, nx.wf (graph other) →
    (find_critical_path other).1.1 = Raises ValueError →
    nx.acyclic (graph other) ∧
    ∀ o, o ∈ nx.nodes (graph other) → ¬ is_type other "OUTPUT" o.
Proof.
  apply (find_critical_path_no_output Examples.no_output).
  - wf_built.
  - acyclic_by_sort.
  - intros o Ho. vm_compute in Ho.
    apply elem_of_cons in Ho as [->|Ho]; [by vm_compute|].
    apply list_elem_of_singleton in Ho as ->. by vm_compute.
Defined.

(** C5.  Relaxing from a node whose distance is [-inf] changes nothing.
    Hence, on an acyclic graph with non-negative delays where some OUTPUT
    node is reachable from an INPUT node, every node that no INPUT node
    reaches keeps distance [-inf], and no such node is the end node of
    the returned path. *)
Theorem unreachable_output_not_selected self :
  nx.wf (graph self) → nx.acyclic (graph self) → nonneg_delays self →
  (∃ o, o ∈ nx.nodes (graph self) ∧ is_type self "OUTPUT" o ∧
        reachable self o) →
  (∀ n d distances predecessors s,
     distances !! n = Some neg_infinity → is_Some (distances !! s) →
     relax n d (distances, predecessors) s
     = Returns (distances, predecessors)) ∧
  ∃ topo_sort distances predecessors end_node path total,
    nx.topological_sort (graph self) = Returns topo_sort ∧
    longest_paths self topo_sort = Returns (distances, predecessors) ∧
    select_end_node self distances = Returns end_node ∧
    find_critical_path self = (Returns (path, total), self, []) ∧
    last path = Some end_node ∧
    (∀ o, o ∈ nx.nodes (graph self) → ¬ reachable self o →
          distances !! o = Some neg_infinity ∧ end_node ≠ o).
Proof.
  intros HG Hacyclic Hd (o & Ho & Htype & Hreach). split.
  { intros n d dist pred s Hn [ds Hs]. unfold relax.
    rewrite (getitem_Some _ _ _ Hn), bind_Returns.
    rewrite (getitem_Some _ _ _ Hs), bind_Returns.
    by rewrite Float.ltb_neg_infinity_add. }
  destruct (find_critical_path_analysis self HG Hacyclic)
    as (topo & dist & pred & e & chain & total & Han).
  { intros Hnil. assert (o ∈ output_nodes self) as Hin
      by by apply elem_of_output_nodes.
    rewrite Hnil in Hin. by apply not_elem_of_nil in Hin. }
  destruct Han as [Htopo Hord Hpaths Hinv Hsel Hout Htotal Hbest Hchain
                   Hwalk Hres].
  exists topo, dist, pred, e, (reverse (e :: chain)), total.
  repeat (split; [done|]). split; [by rewrite last_reverse|].
  assert (reachable self e) as He.
  { destruct (dp_reach _ _ _ _ Hinv e total Htotal) as [->|?]; [|done].
    assert (nonneg neg_infinity) as Hbad; [|done].
    apply Hbest; [done|].
    destruct (reachable_nonneg self HG topo dist pred o Hord Hinv Hd Hreach)
      as (d & Hdo & Hnn).
    exists o, d. split; [by apply elem_of_output_nodes|done]. }
  intros o' Ho' Hun. split; [|by intros ->].
  destruct (dp_dom _ _ _ _ Hinv o' Ho') as [[d' Hd'] _].
  by destruct (dp_reach _ _ _ _ Hinv o' d' Hd') as [->|?].
Qed.

Lemma two_outputs_reachable : reachable Examples.two_outputs "O1".
Proof.
  exists "I1". split; [vm_compute; set_solver|]. split; [reflexivity|].
  apply rtc_l with "A1"; [unfold nx.edge; vm_compute; set_solver|].
  apply rtc_once. unfold nx.edge; vm_compute; set_solver.
Qed.

Lemma unreachable_output_not_selected_witness :
  (∀ n d distances predecessors s,
     distances !! n = Some neg_infinity → is_Some (distances !! s) →
     relax n d (distances, predecessors) s
     = Returns (distances, predecessors)) ∧
  ∃ topo_sort distances predecessors end_node path total,
    nx.topological_sort (graph Examples.two_outputs) = Returns topo_sort ∧
    longest_paths Examples.two_outputs topo_sort
      = Returns (distances, predecessors) ∧
    select_end_node Examples.two_outputs distances = Returns end_node ∧
    find_critical_path Examples.two_outputs
      = (Returns (path, total), Examples.two_outputs, []) ∧
    last path = Some end_node ∧
    (∀ o, o ∈ nx.nodes (graph Examples.two_outputs) →
          ¬ reachable Examples.two_outputs o →
          distances !! o = Some neg_infinity ∧ end_node ≠ o).
Proof.
  apply (unreachable_output_not_selected Examples.two_outputs).
  - wf_built.
  - acyclic_by_sort.
  - intros t d. apply default_delays_nonneg.
  - exists "O1". split; [vm_compute; set_solver|]. split; [reflexivity|].
    apply two_outputs_reachable.
Defined.

(** The reachable output wins although [max] meets the other one first. *)
Example two_outputs_critical_path :
  (find_critical_path Examples.two_outputs).1.1
  = Returns (["I1"; "A1"; "O1"], 1%float).
Proof. vm_compute. reflexivity. Qed.

(** C6.  For the chain I1 -> A1 -> A2 -> O1 (INPUT, ADD, ADD, OUTPUT) with
    the default delays, whatever the order in which the nodes and edges
    were added, [find_critical_path] returns the path [I1, A1, A2, O1]
    with total delay [2.0]. *)
Theorem chain_critical_path G :
  nx.nodes G ≡ₚ ["I1"; "A1"; "A2"; "O1"] →
  nx.edges G ≡ₚ [("I1", "A1"); ("A1", "A2"); ("A2", "O1")] →
  find_critical_path (Examples.chain_on G)
  = (Returns (["I1"; "A1"; "A2"; "O1"], 2%float), Examples.chain_on G, []).
Proof.
  destruct G as [ns es]. simpl. intros Hn He.
  symmetry in Hn, He.
  apply permutations_Permutation in Hn, He.
  vm_compute in Hn, He.
  repeat (apply elem_of_cons in He as [->|He]);
    try (by apply not_elem_of_nil in He);
  repeat (apply elem_of_cons in Hn as [->|Hn]);
    try (by apply not_elem_of_nil in Hn);
  apply find_critical_path_parts; vm_compute; done.
Qed.

Lemma chain_critical_path_witness :
  find_critical_path Examples.chain
  = (Returns (["I1"; "A1"; "A2"; "O1"], 2%float), Examples.chain, []).
Proof.
  apply (chain_critical_path (graph Examples.chain)); vm_compute; reflexivity.
Defined.

(** C7.  [identify_node_type] returns ["UNKNOWN"] for an id that has no
    registered type, and [calculate_path_delay] adds exactly [0.0] for a
    node whose type has no entry in [delays]: alone it sums to [0.0],
    after [path] it adds [0.0] to the sum of [path], which leaves every
    sum that is a number [==] to what it was. *)
Theorem unknown_type_zero_delay self node_id node path :
  node_types self !! node_id = None →
  delays self !! identify_node_type_of (node_types self) node = None →
  identify_node_type node_id self = (Returns "UNKNOWN", self, []) ∧
  calculate_path_delay [node] self = (Returns 0%float, self, []) ∧
  ∃ t, calculate_path_delay path self = (Returns t, self, []) ∧
       calculate_path_delay (path ++ [node]) self
       = (Returns (t + 0)%float, self, []) ∧
       ((t =? t)%float = true → (t + 0 =? t)%float = true).
Proof.
  intros Hid Hdelay.
  assert (node_delay_of self node = 0%float) as Hzero.
  { unfold node_delay_of. by rewrite Hdelay. }
  split; [|split].
  - unfold identify_node_type, mbind, gets, mret, identify_node_type_of.
    simpl. by rewrite Hid.
  - unfold calculate_path_delay, mbind, gets, mret, sum_delays. simpl.
    by rewrite Hzero.
  - exists (sum_delays self path 0%float). split; [done|]. split.
    + unfold calculate_path_delay, mbind, gets, mret, sum_delays. simpl.
      by rewrite foldl_snoc, Hzero.
    + apply Float.add_zero_eqb.
Qed.

Lemma unknown_type_zero_delay_witness :
  identify_node_type "X9" Examples.chain
    = (Returns "UNKNOWN", Examples.chain, []) ∧
  calculate_path_delay ["X9"] Examples.chain
    = (Returns 0%float, Examples.chain, []) ∧
  ∃ t, calculate_path_delay ["I1"; "A1"] Examples.chain
       = (Returns t, Examples.chain, []) ∧
       calculate_path_delay (["I1"; "A1"] ++ ["X9"]) Examples.chain
       = (Returns (t + 0)%float, Examples.chain, []) ∧
       ((t =? t)%float = true → (t + 0 =? t)%float = true).
Proof.
  apply (unknown_type_zero_delay Examples.chain "X9" "X9" ["I1"; "A1"]).
  - vm_compute. reflexivity.
  - vm_compute. reflexivity.
Defined.

(** C8.  A second call of [find_critical_path], on the state the first
    call left, gives the same outcome: same path, same total delay (and
    the same state and output). *)
Theorem find_critical_path_twice self :
  find_critical_path (find_critical_path self).1.2 = find_critical_path self.
Proof. by rewrite find_critical_path_state. Qed.

(** C9.  [find_critical_path] leaves [self] as it found it, on every
    graph, cyclic ones included: nodes, edges, node types and delays are
    unchanged. *)
Theorem find_critical_path_read_only self :
  let self' := (find_critical_path self).1.2 in
  nx.nodes (graph self') = nx.nodes (graph self) ∧
  nx.edges (graph self') = nx.edges (graph self) ∧
  node_types self' = node_types self ∧
  delays self' = delays self ∧
  self' = self.
Proof. simpl. by rewrite find_critical_path_state. Qed.

(** C10.  On an acyclic graph that has OUTPUT nodes, none of them
    reachable from an INPUT node, [find_critical_path] raises nothing: it
    returns the one-node path made of an OUTPUT node, whose predecessor is
    still [None], with total delay [-inf]. *)
Theorem find_critical_path_unreachable_outputs self :
  nx.wf (graph self) → nx.acyclic (graph self) →
  (∃ o, o ∈ nx.nodes (graph self) ∧ is_type self "OUTPUT" o) →
  (∀ o, o ∈ nx.nodes (graph self) → is_type self "OUTPUT" o →
        ¬ reachable self o) →
  ∃ topo_sort distances predecessors end_node,
    nx.topological_sort (graph self) = Returns topo_sort ∧
    longest_paths self topo_sort = Returns (distances, predecessors) ∧
    end_node ∈ nx.nodes (graph self) ∧
    is_type self "OUTPUT" end_node ∧
    predecessors !! end_node = Some None ∧
    find_critical_path self
    = (Returns ([end_node], neg_infinity), self, []).
Proof.
  intros HG Hacyclic (o & Ho) Hun.
  destruct (find_critical_path_analysis self HG Hacyclic)
    as (topo & dist & pred & e & chain & total & Han).
  { intros Hnil. apply (elem_of_output_nodes self) in Ho.
    rewrite Hnil in Ho. by apply not_elem_of_nil in Ho. }
  destruct Han as [Htopo Hord Hpaths Hinv Hsel Hout Htotal Hbest Hchain
                   Hwalk Hres].
  apply (elem_of_output_nodes self) in Hout as [He Htype].
  assert (total = neg_infinity) as ->.
  { destruct (dp_reach _ _ _ _ Hinv e total Htotal) as [?|Hr]; [done|].
    by destruct (Hun e He Htype). }
  assert (chain = []) as ->.
  { destruct chain as [|u chain]; [done|]. destruct Hchain as [Hp _].
    destruct (dp_link _ _ _ _ Hinv e u Hp) as (_ & du & y & _ & Hde & Hy).
    rewrite Htotal in Hde. injection Hde as Hde. rewrite <-Hde in Hy.
    by rewrite Float.ltb_neg_infinity in Hy. }
  exists topo, dist, pred, e. by repeat (split; [done|]).
Qed.

Lemma find_critical_path_unreachable_outputs_witness :
  ∃ topo_sort distances predecessors end_node,
    nx.topological_sort (graph Examples.floating) = Returns topo_sort ∧
    longest_paths Examples.floating topo_sort
      = Returns (distances, predecessors) ∧
    end_node ∈ nx.nodes (graph Examples.floating) ∧
    is_type Examples.floating "OUTPUT" end_node ∧
    predecessors !! end_node = Some None ∧
    find_critical_path Examples.floating
    = (Returns ([end_node], neg_infinity), Examples.floating, []).
Proof.
  apply (find_critical_path_unreachable_outputs Examples.floating).
  - wf_built.
  - acyclic_by_sort.
  - exists "O1". split; [vm_compute; set_solver|reflexivity].
  - intros o _ _ (i & Hi & Htype & _). vm_compute in Hi.
    apply elem_of_cons in Hi as [->|Hi]; [by vm_compute in Htype|].
    apply list_elem_of_singleton in Hi as ->. by vm_compute in Htype.
Defined.

(** ** The order of the floats *)

Module FloatOrder.
Local Open Scope float_scope.

Lemma SFltb_rank x y :
  SFltb x y = true ↔
  x ≠ S754_nan ∧ y ≠ S754_nan ∧ rank_lt (sf_rank x) (sf_rank y).
Proof.
  unfold SFltb, rank_lt.
  destruct x as [sx|sx| |sx mx ex], y as [sy|sy| |sy my ey];
    try destruct sx; try destruct sy; simpl;
    try (split; [discriminate|intros (? & ? & ?); first [done | lia]]);
    try (split; [intros _; repeat split; first [done | lia]|done]).
  - destruct (Z.compare_spec ex ey) as [->|?|?].
    + rewrite Pos.compare_cont_spec. simpl.
      destruct (Pos.compare_spec mx my) as [->|?|?]; simpl;
        (split; [try discriminate; intros _; repeat split; try done; lia
                |intros (_ & _ & ?); first [done | lia]]).
    + split; [discriminate|intros (_ & _ & ?); lia].
    + split; [intros _; repeat split; try done; lia|done].
  - destruct (Z.compare_spec ex ey) as [->|?|?].
    + rewrite Pos.compare_cont_spec. simpl.
      destruct (Pos.compare_spec mx my) as [->|?|?]; simpl;
        (split; [try discriminate; intros _; repeat split; try done; lia
                |intros (_ & _ & ?); first [done | lia]]).
    + split; [intros _; repeat split; try done; lia|done].
    + split; [discriminate|intros (_ & _ & ?); lia].
Qed.

Lemma ltb_rank x y :
  (x <? y) = true ↔
  Prim2SF x ≠ S754_nan ∧ Prim2SF y ≠ S754_nan ∧
  rank_lt (sf_rank (Prim2SF x)) (sf_rank (Prim2SF y)).
Proof. rewrite ltb_spec. apply SFltb_rank. Qed.

(** [x > x] is false. *)
Lemma ltb_irrefl x : (x <? x) = false.
Proof.
  destruct (x <? x) eqn:E; [|done].
  apply ltb_rank in E as (_ & _ & H). unfold rank_lt in H. lia.
Qed.

(** If [b > a] and not [k > a] then not [k > b]. *)
Lemma ltb_false_mono a b k :
  (a <? b) = true → (a <? k) = false → (b <? k) = false.
Proof.
  intros Hab Hak. destruct (b <? k) eqn:E; [|done].
  apply ltb_rank in Hab as (Ha & Hb & Hab), E as (_ & Hk & Hbk).
  assert ((a <? k) = true) as H; [|congruence].
  apply ltb_rank. repeat split; try done. unfold rank_lt in *. lia.
Qed.

(** If [b > a] and not [k > a], for a number [k], then [b > k]. *)
Lemma ltb_le_trans a b k :
  Prim2SF k ≠ S754_nan →
  (a <? b) = true → (a <? k) = false → (k <? b) = true.
Proof.
  intros Hk Hab Hak.
  apply ltb_rank in Hab as (Ha & Hb & Hab).
  apply ltb_rank. repeat split; try done.
  destruct (decide (rank_lt (sf_rank (Prim2SF a)) (sf_rank (Prim2SF k))))
    as [Hlt|Hge].
  - assert ((a <? k) = true) as H; [by apply ltb_rank|congruence].
  - unfold rank_lt in *. lia.
Qed.

Lemma nonneg_not_nan x : nonneg x → Prim2SF x ≠ S754_nan.
Proof. intros H%Float.nonneg_spec E. by rewrite E in H. Qed.

End FloatOrder.

(** ** More on the longest-path loop *)

Lemma relax_edge_eq self dist pred x s dx ds :
  dist !! x = Some dx → dist !! s = Some ds →
  relax_edge self (dist, pred) (x, s)
  = Returns (if (ds <? dx + node_delay_of self x)%float
             then (<[s := (dx + node_delay_of self x)%float]> dist,
                   <[s := Some x]> pred)
             else (dist, pred)).
Proof.
  intros Hx Hs. unfold relax_edge, relax. simpl.
  rewrite (getitem_Some _ _ _ Hx), bind_Returns.
  rewrite (getitem_Some _ _ _ Hs), bind_Returns.
  by destruct (ds <? _)%float.
Qed.

Section settled.
Context (self : DigitalCircuit).
Local Abbreviation G := (graph self).
Context (HG : nx.wf G) (topo : list string) (Htopo : topo_order G topo).

Lemma relax_edge_settled pre x s post dist pred :
  edges_in_order G topo = pre ++ (x, s) :: post →
  dp_inv self pre dist pred → settled self pre dist →
  ∃ dist' pred',
    relax_edge self (dist, pred) (x, s) = Returns (dist', pred') ∧
    dp_inv self (pre ++ [(x, s)]) dist' pred' ∧
    settled self (pre ++ [(x, s)]) dist'.
Proof.
  intros Hsplit Hinv Hset.
  destruct (relax_edge_inv self HG topo Htopo pre x s post dist pred
              Hsplit Hinv) as (dist' & pred' & Hrun & Hinv').
  exists dist', pred'. split; [done|]. split; [done|].
  assert (nx.edge G x s) as Hxs.
  { apply (elem_of_edges_in_order G HG topo Htopo).
    rewrite Hsplit. set_solver. }
  assert (x ∈ nx.nodes G ∧ s ∈ nx.nodes G) as [Hx Hs].
  { destruct HG as (_ & _ & Hends). by apply Hends. }
  assert (s ≠ x) as Hne
    by apply (edges_in_order_later G HG topo Htopo pre x s post x Hsplit).
  assert (∀ t, (s, t) ∉ pre) as Hlater.
  { intros t. by apply (edges_in_order_later G HG topo Htopo pre x s post t). }
  destruct (dp_dom _ _ _ _ Hinv x Hx) as [[dx Hdx] _].
  destruct (dp_dom _ _ _ _ Hinv s Hs) as [[ds Hds] _].
  rewrite (relax_edge_eq self dist pred x s dx ds Hdx Hds) in Hrun.
  destruct (ds <? dx + node_delay_of self x)%float eqn:Hlt;
    injection Hrun as <- <-.
  - intros u v [Hin|Hin%list_elem_of_singleton]%elem_of_app.
    + destruct (Hset u v Hin) as (du & dv & Hdu & Hdv & Hle).
      assert (u ≠ s) as Hus by (intros ->; by apply (Hlater v)).
      rewrite lookup_insert_ne by done.
      destruct (decide (v = s)) as [->|Hvs].
      * rewrite lookup_insert_eq. eexists _, _. split; [done|].
        split; [done|]. simplify_eq.
        by apply (FloatOrder.ltb_false_mono ds).
      * rewrite lookup_insert_ne by done. by eexists _, _.
    + simplify_eq. rewrite lookup_insert_ne by done.
      rewrite lookup_insert_eq. eexists _, _. split; [done|].
      split; [done|]. apply FloatOrder.ltb_irrefl.
  - intros u v [Hin|Hin%list_elem_of_singleton]%elem_of_app.
    + by apply Hset.
    + simplify_eq. by eexists _, _.
Qed.

Lemma longest_paths_settled :
  ∃ dist pred,
    longest_paths self topo = Returns (dist, pred) ∧
    dp_inv self (edges_in_order G topo) dist pred ∧
    settled self (edges_in_order G topo) dist.
Proof.
  unfold longest_paths. rewrite longest_paths_flat
    by (intros x Hx; by apply Htopo).
  destruct (for_each_returns (relax_edge self)
    (λ pre post st, dp_inv self pre st.1 st.2 ∧ settled self pre st.1)
    (edges_in_order G topo)
    (start_distances self, initial_predecessors G))
    as ([dist pred] & Hrun & Hfin).
  - split; [apply dp_inv_start|]. intros u v Hin.
    by apply not_elem_of_nil in Hin.
  - intros pre [x s] post [dist pred] Hsplit [Hpre Hset].
    destruct (relax_edge_settled pre x s post dist pred Hsplit Hpre Hset)
      as (dist' & pred' & Hstep & Hpost).
    by exists (dist', pred').
  - by exists dist, pred.
Qed.

End settled.

(** ** More on [max] *)

Lemma max_loop_upper (dist : gmap string float) items :
  ∀ seen m mv,
    dist !! m = Some mv →
    (∀ i, i ∈ items → is_Some (dist !! i)) →
    (∀ k kv, k ∈ seen → dist !! k = Some kv → (mv <? kv)%float = false) →
    ∃ e ve,
      max_loop (getitem dist) items m mv = Returns e ∧
      dist !! e = Some ve ∧
      ∀ k kv, k ∈ seen ++ m :: items → dist !! k = Some kv →
              (ve <? kv)%float = false.
Proof.
  induction items as [|item items IH]; intros seen m mv Hm Hdom Hseen.
  - exists m, mv. split; [done|]. split; [done|].
    intros k kv [Hk|Hk%list_elem_of_singleton]%elem_of_app Hkv.
    + by apply (Hseen k).
    + simplify_eq. apply FloatOrder.ltb_irrefl.
  - destruct (Hdom item) as [val Hval]; [left|].
    cbn [max_loop]. rewrite (getitem_Some _ _ _ Hval), bind_Returns.
    destruct (mv <? val)%float eqn:Hlt.
    + destruct (IH (seen ++ [m]) item val Hval) as (e & ve & Hrun & He & Hall).
      { intros i Hi. apply Hdom. by right. }
      { intros k kv [Hk|Hk%list_elem_of_singleton]%elem_of_app Hkv.
        - apply (FloatOrder.ltb_false_mono mv); [done|]. by apply (Hseen k).
        - simplify_eq. apply (FloatOrder.ltb_false_mono mv); [done|].
          apply FloatOrder.ltb_irrefl. }
      exists e, ve. split; [done|]. split; [done|].
      intros k kv Hk. apply Hall. rewrite <-app_assoc. done.
    + destruct (IH (seen ++ [item]) m mv Hm) as (e & ve & Hrun & He & Hall).
      { intros i Hi. apply Hdom. by right. }
      { intros k kv [Hk|Hk%list_elem_of_singleton]%elem_of_app Hkv.
        - by apply (Hseen k).
        - by simplify_eq. }
      exists e, ve. split; [done|]. split; [done|].
      intros k kv Hk. apply Hall. set_solver.
Qed.

Lemma max_loop_first (dist : gmap string float) items :
  ∀ pre m mv mid,
    dist !! m = Some mv →
    (∀ i, i ∈ items → is_Some (dist !! i)) →
    (∀ k kv, k ∈ mid ++ items → dist !! k = Some kv →
             Prim2SF kv ≠ S754_nan) →
    (∀ k kv, k ∈ pre → dist !! k = Some kv → (kv <? mv)%float = true) →
    (∀ k kv, k ∈ mid → dist !! k = Some kv → (mv <? kv)%float = false) →
    ∃ e ve pre' post',
      max_loop (getitem dist) items m mv = Returns e ∧
      dist !! e = Some ve ∧
      pre ++ m :: mid ++ items = pre' ++ e :: post' ∧
      ∀ k kv, k ∈ pre' → dist !! k = Some kv → (kv <? ve)%float = true.
Proof.
  induction items as [|item items IH];
    intros pre m mv mid Hm Hdom Hnum Hpre Hmid.
  - exists m, mv, pre, mid. rewrite app_nil_r. done.
  - destruct (Hdom item) as [val Hval]; [left|].
    cbn [max_loop]. rewrite (getitem_Some _ _ _ Hval), bind_Returns.
    destruct (mv <? val)%float eqn:Hlt.
    + destruct (IH (pre ++ m :: mid) item val [] Hval)
        as (e & ve & pre' & post' & Hrun & He & Hsplit & Hfirst).
      { intros i Hi. apply Hdom. by right. }
      { intros k kv Hk. apply Hnum. set_solver. }
      { intros k kv [Hk|[->|Hk]%elem_of_cons]%elem_of_app Hkv.
        - apply (FloatOrder.ltb_le_trans mv); [|done|].
          + pose proof (Hpre k kv Hk Hkv) as H.
            by apply FloatOrder.ltb_rank in H as (? & _).
          + destruct (mv <? kv)%float eqn:E; [|done].
            pose proof (Hpre k kv Hk Hkv) as H.
            apply FloatOrder.ltb_rank in H as (_ & _ & H1).
            apply FloatOrder.ltb_rank in E as (_ & _ & H2).
            unfold rank_lt in *. lia.
        - by simplify_eq.
        - apply (FloatOrder.ltb_le_trans mv); [|done|by apply (Hmid k)].
          apply (Hnum k); [set_solver|done]. }
      { intros k kv Hk. by apply not_elem_of_nil in Hk. }
      exists e, ve, pre', post'. split; [done|]. split; [done|].
      split; [|done]. rewrite <-Hsplit, <-app_assoc. done.
    + destruct (IH pre m mv (mid ++ [item]) Hm)
        as (e & ve & pre' & post' & Hrun & He & Hsplit & Hfirst).
      { intros i Hi. apply Hdom. by right. }
      { intros k kv Hk. apply Hnum. set_solver. }
      { done. }
      { intros k kv [Hk|Hk%list_elem_of_singleton]%elem_of_app Hkv.
        - by apply (Hmid k).
        - by simplify_eq. }
      exists e, ve, pre', post'. split; [done|]. split; [done|].
      split; [|done]. rewrite <-Hsplit, <-app_assoc. done.
Qed.

(** ** More on the analysis *)

Section analysis_more.
Context (self : DigitalCircuit).
Local Abbreviation G := (graph self).
Context (HG : nx.wf G).

Lemma select_end_node_upper dist e :
  (∀ v, v ∈ nx.nodes G → is_Some (dist !! v)) →
  select_end_node self dist = Returns e →
  ∃ ve, dist !! e = Some ve ∧
    ∀ o d, o ∈ output_nodes self → dist !! o = Some d →
           (ve <? d)%float = false.
Proof.
  intros Hdom. unfold select_end_node, py_max.
  destruct (output_nodes self) as [|item items] eqn:Hout; [done|].
  assert (∀ i, i ∈ item :: items → is_Some (dist !! i)) as Hdom'.
  { intros i Hi. rewrite <-Hout in Hi.
    apply elem_of_output_nodes in Hi as [Hi _]. by apply Hdom. }
  destruct (Hdom' item) as [val Hval]; [left|].
  rewrite (getitem_Some _ _ _ Hval), bind_Returns.
  destruct (max_loop_upper dist items [] item val Hval)
    as (e' & ve & Hrun & He & Hall).
  { intros i Hi. apply Hdom'. by right. }
  { intros k kv Hk. by apply not_elem_of_nil in Hk. }
  rewrite Hrun. intros [= <-]. by exists ve.
Qed.

Lemma select_end_node_first dist e :
  (∀ v, v ∈ nx.nodes G → is_Some (dist !! v)) →
  (∀ v d, dist !! v = Some d → Prim2SF d ≠ S754_nan) →
  select_end_node self dist = Returns e →
  ∃ ve pre post,
    dist !! e = Some ve ∧ output_nodes self = pre ++ e :: post ∧
    ∀ o d, o ∈ pre → dist !! o = Some d → (d <? ve)%float = true.
Proof.
  intros Hdom Hnum. unfold select_end_node, py_max.
  destruct (output_nodes self) as [|item items] eqn:Hout; [done|].
  assert (∀ i, i ∈ item :: items → is_Some (dist !! i)) as Hdom'.
  { intros i Hi. rewrite <-Hout in Hi.
    apply elem_of_output_nodes in Hi as [Hi _]. by apply Hdom. }
  destruct (Hdom' item) as [val Hval]; [left|].
  rewrite (getitem_Some _ _ _ Hval), bind_Returns.
  destruct (max_loop_first dist items [] item val [] Hval)
    as (e' & ve & pre & post & Hrun & He & Hsplit & Hfirst).
  { intros i Hi. apply Hdom'. by right. }
  { intros k kv _. apply Hnum. }
  { intros k kv Hk. by apply not_elem_of_nil in Hk. }
  { intros k kv Hk. by apply not_elem_of_nil in Hk. }
  rewrite Hrun. intros [= <-]. by exists ve, pre, post.
Qed.

Lemma dp_inv_number topo dist pred :
  dp_inv self (edges_in_order G topo) dist pred → nonneg_delays self →
  ∀ v d, dist !! v = Some d → Prim2SF d ≠ S754_nan.
Proof.
  intros Hinv Hd v d Hv.
  destruct (dp_sign _ _ _ _ Hinv Hd v d Hv) as [->|Hnn]; [done|].
  by apply FloatOrder.nonneg_not_nan.
Qed.

(** The analysis, with the loop's fixpoint. *)
Lemma find_critical_path_settled :
  nx.acyclic G → output_nodes self ≠ [] →
  ∃ topo dist pred end_node chain total,
    analysis self topo dist pred end_node chain total ∧
    settled self (edges_in_order G topo) dist.
Proof.
  intros Hacyclic Hout.
  destruct (find_critical_path_analysis self HG Hacyclic Hout)
    as (topo & dist & pred & e & chain & total & Han).
  exists topo, dist, pred, e, chain, total. split; [done|].
  destruct (longest_paths_settled self HG topo (an_order _ _ _ _ _ _ _ Han))
    as (dist' & pred' & Hrun & _ & Hset).
  rewrite (an_paths _ _ _ _ _ _ _ Han) in Hrun. by simplify_eq.
Qed.

End analysis_more.

Lemma pred_chain_link pred a : ∀ c l v u b,
  pred_chain pred c l → c :: l = a ++ v :: u :: b →
  pred !! v = Some (Some u).
Proof.
  induction a as [|x a IH]; intros c l v u b Hchain Hsplit.
  - simpl in Hsplit. simplify_eq. by destruct Hchain.
  - simpl in Hsplit. injection Hsplit as -> ->.
    destruct a as [|y a]; simpl in Hchain.
    + destruct Hchain as [_ Hchain]. by apply (IH v (u :: b) v u b).
    + destruct Hchain as [_ Hchain].
      by apply (IH y (a ++ v :: u :: b) v u b).
Qed.

Lemma pred_chain_nonneg self topo dist pred :
  dp_inv self (edges_in_order (graph self) topo) dist pred →
  nonneg_delays self →
  ∀ l v dv, pred_chain pred v l → dist !! v = Some dv → nonneg dv →
    ∀ x, x ∈ v :: l → ∃ dx, dist !! x = Some dx ∧ nonneg dx.
Proof.
  intros Hinv Hd. induction l as [|u l IH]; intros v dv Hchain Hv Hnn x Hx.
  - apply list_elem_of_singleton in Hx as ->. by exists dv.
  - apply elem_of_cons in Hx as [->|Hx]; [by exists dv|].
    destruct Hchain as [Hp Hchain].
    destruct (dp_link _ _ _ _ Hinv v u Hp) as (_ & du & y & Hdu & Hdv & Hy).
    apply (IH u du Hchain Hdu); [|done].
    destruct (dp_sign _ _ _ _ Hinv Hd u du Hdu) as [->|?]; [|done].
    by rewrite Float.ltb_neg_infinity_add in Hy.
Qed.

Lemma walk_nodes G w :
  nx.wf G → walk G w → (∀ x, w = [x] → x ∈ nx.nodes G) →
  ∀ x, x ∈ w → x ∈ nx.nodes G.
Proof.
  intros (_ & _ & Hends). induction w as [|a w IH]; intros Hw Hone x Hx.
  - by apply not_elem_of_nil in Hx.
  - destruct w as [|b w]; [apply list_elem_of_singleton in Hx as ->; by apply Hone|].
    destruct Hw as [Hab Hw].
    apply elem_of_cons in Hx as [->|Hx]; [by apply (Hends a b)|].
    apply IH; [done| |done]. intros y [= -> ->]. by apply (Hends a y).
Qed.

(** ** Facts on [parse_circuit] *)

Lemma mfor_add_edges node_id inputs self :
  mfor inputs (λ input_node,
    modify (λ self,
      {| delays := delays self;
         graph := nx.add_edge input_node node_id (graph self);
         node_types := node_types self |})) self
  = (Returns tt,
     {| delays := delays self;
        graph := foldl (λ G i, nx.add_edge i node_id G) (graph self) inputs;
        node_types := node_types self |}, []).
Proof.
  revert self. induction inputs as [|i inputs IH]; intros self.
  - by destruct self.
  - cbn [mfor foldl]. unfold mbind at 1, modify at 1. by rewrite IH.
Qed.

Lemma add_component_run t n inputs self :
  add_component t n inputs self
  = (Returns tt,
     {| delays := delays self;
        graph := foldl (λ G i, nx.add_edge i n G)
                   (nx.add_node n (graph self)) inputs;
        node_types := <[n := t]> (node_types self) |}, []).
Proof.
  unfold add_component, mbind at 1, modify at 1.
  by rewrite mfor_add_edges.
Qed.

Lemma apply_component_eq self t n inputs :
  apply_component self (t, n, inputs)
  = {| delays := delays self;
       graph := foldl (λ G i, nx.add_edge i n G)
                  (nx.add_node n (graph self)) inputs;
       node_types := <[n := t]> (node_types self) |}.
Proof. unfold apply_component. simpl. by rewrite add_component_run. Qed.

Lemma parse_line_read line name self :
  parse_line line name self
  = (Returns (read_line line name).2,
     foldl apply_component self (option_list (read_line line name).1), []).
Proof.
  unfold parse_line, read_line.
  destruct (_ || _).
  - destruct (_ && _); [|done]. by destruct (_ !! 1).
  - destruct (py.split _) as [|t [|n inputs]]; [done..|].
    unfold mbind, mret. rewrite add_component_run. simpl.
    by rewrite apply_component_eq.
Qed.

Lemma parse_lines_read lines : ∀ name self,
  parse_lines lines name self
  = (Returns (read_lines lines name).2,
     foldl apply_component self (read_lines lines name).1, []).
Proof.
  induction lines as [|line lines IH]; intros name self; [done|].
  cbn [parse_lines read_lines]. unfold mbind. rewrite parse_line_read.
  destruct (read_line line name) as [c [e|name']]; simpl; [done|].
  rewrite IH. destruct (read_lines lines name') as [cs r]. simpl.
  by rewrite foldl_app.
Qed.

Lemma read_line_component line name :
  (read_line line name).1 = component_of line.
Proof.
  unfold component_of, read_line.
  destruct (_ || _).
  - destruct (py.falsy name && _), (py.falsy None && _); simpl; try done;
      by destruct (py.split_on ":" (py.strip line) !! 1).
  - by destruct (py.split _) as [|t [|n inputs]].
Qed.

Lemma read_line_no_file line name :
  (read_line line name).2 ≠ inl FileNotFoundError.
Proof.
  unfold read_line. destruct (_ || _).
  - destruct (_ && _); [|done]. by destruct (_ !! 1).
  - by destruct (py.split _) as [|t [|n inputs]].
Qed.

Lemma read_lines_no_file lines : ∀ name,
  (read_lines lines name).2 ≠ inl FileNotFoundError.
Proof.
  induction lines as [|line lines IH]; intros name; [done|].
  cbn [read_lines]. pose proof (read_line_no_file line name) as H.
  destruct (read_line line name) as [c [e|name']]; [done|].
  specialize (IH name'). by destruct (read_lines lines name').
Qed.

(** All that the loop adds comes from the component lines. *)
Lemma read_lines_components lines : ∀ name c,
  c ∈ (read_lines lines name).1 →
  ∃ line, line ∈ lines ∧ component_of line = Some c.
Proof.
  induction lines as [|line lines IH]; intros name c Hc.
  - by apply not_elem_of_nil in Hc.
  - cbn [read_lines] in Hc.
    pose proof (read_line_component line name) as Hl.
    destruct (read_line line name) as [c' [e|name']]; simpl in Hl, Hc.
    + exists line. split; [left|]. destruct c'; [|by apply not_elem_of_nil in Hc].
      apply list_elem_of_singleton in Hc as ->. done.
    + specialize (IH name' c).
      destruct (read_lines lines name') as [cs r]. simpl in *.
      apply elem_of_app in Hc as [Hc|Hc].
      * exists line. split; [left|].
        destruct c'; [|by apply not_elem_of_nil in Hc].
        apply list_elem_of_singleton in Hc as ->. done.
      * destruct (IH Hc) as (l & Hl' & Hcl). exists l. split; [by right|done].
Qed.

(** When the loop runs to the end, every component line was added, in
    the order of the lines. *)
Lemma read_lines_complete lines : ∀ name name',
  (read_lines lines name).2 = inr name' →
  (read_lines lines name).1 = omap component_of lines.
Proof.
  induction lines as [|line lines IH]; intros name name' Hok; [done|].
  cbn [read_lines] in *.
  pose proof (read_line_component line name) as Hl.
  destruct (read_line line name) as [c [e|name1]]; [done|].
  specialize (IH name1 name').
  destruct (read_lines lines name1) as [cs r]. simpl in *.
  rewrite <-Hl, (IH Hok). by destruct c.
Qed.

Lemma read_lines_app pre : ∀ rest name name',
  (read_lines pre name).2 = inr name' →
  read_lines (pre ++ rest) name
  = ((read_lines pre name).1 ++ (read_lines rest name').1,
     (read_lines rest name').2).
Proof.
  induction pre as [|line pre IH]; intros rest name name' Hok.
  - simpl in *. simplify_eq. by destruct (read_lines rest name').
  - cbn [read_lines app] in *.
    destruct (read_line line name) as [c [e|name1]]; [done|].
    specialize (IH rest name1 name').
    destruct (read_lines pre name1) as [cs r]. simpl in *.
    rewrite (IH Hok). by rewrite app_assoc.
Qed.

(** *** The circuit after the components *)

Lemma circuit_eq (a b : DigitalCircuit) :
  delays a = delays b → graph a = graph b → node_types a = node_types b →
  a = b.
Proof. destruct a, b. simpl. by intros -> -> ->. Qed.

Lemma apply_components_delays cs : ∀ self,
  delays (foldl apply_component self cs) = delays self.
Proof.
  induction cs as [|[[t n] ins] cs IH]; intros self; [done|].
  simpl. rewrite IH. by rewrite apply_component_eq.
Qed.

Lemma apply_components_types cs : ∀ self n,
  node_types (foldl apply_component self cs) !! n
  = match last_declared cs n with
    | Some t => Some t
    | None => node_types self !! n
    end.
Proof.
  unfold last_declared.
  induction cs as [|[[t n'] ins] cs IH] using rev_ind; intros self n; [done|].
  rewrite !foldl_snoc. simpl.
  rewrite apply_component_eq. simpl. rewrite lookup_insert.
  case_bool_decide; case_decide; done.
Qed.

#[local] Instance extends_preorder : PreOrder extends.
Proof.
  split.
  - by intros G.
  - intros G1 G2 G3 [? ?] [? ?]. split; by etrans.
Qed.

Lemma add_node_extends n G : extends G (nx.add_node n G).
Proof.
  unfold nx.add_node. case_bool_decide; [done|].
  split; simpl; [by apply prefix_app_r|done].
Qed.

Lemma add_node_elem n G : n ∈ nx.nodes (nx.add_node n G).
Proof. unfold nx.add_node. case_bool_decide; [done|]. simpl. set_solver. Qed.

Lemma add_node_present n G : n ∈ nx.nodes G → nx.add_node n G = G.
Proof. intros H. unfold nx.add_node. by rewrite bool_decide_true. Qed.

Lemma add_edge_extends u v G : extends G (nx.add_edge u v G).
Proof.
  unfold nx.add_edge.
  assert (extends G (nx.add_node v (nx.add_node u G))) as H.
  { etrans; apply add_node_extends. }
  case_bool_decide; [done|]. destruct H as [H1 H2].
  split; simpl; [done|]. by apply prefix_app_r.
Qed.

Lemma add_edge_elem u v G :
  u ∈ nx.nodes (nx.add_edge u v G) ∧ v ∈ nx.nodes (nx.add_edge u v G) ∧
  (u, v) ∈ nx.edges (nx.add_edge u v G).
Proof.
  assert (u ∈ nx.nodes (nx.add_node v (nx.add_node u G)) ∧
          v ∈ nx.nodes (nx.add_node v (nx.add_node u G))) as [Hu Hv].
  { split; [|apply add_node_elem].
    destruct (add_node_extends v (nx.add_node u G)) as [Hp _].
    eapply elem_of_prefix; [apply add_node_elem|exact Hp]. }
  unfold nx.add_edge. case_bool_decide; [done|]. simpl. set_solver.
Qed.

Lemma add_edge_present u v G :
  u ∈ nx.nodes G → v ∈ nx.nodes G → (u, v) ∈ nx.edges G →
  nx.add_edge u v G = G.
Proof.
  intros Hu Hv Huv. unfold nx.add_edge.
  rewrite (add_node_present u G Hu), (add_node_present v G Hv).
  by rewrite bool_decide_true.
Qed.

Lemma present_extends G G' c : extends G G' → present G c → present G' c.
Proof.
  intros [Hn He] [Hc Hi]. split.
  - by eapply elem_of_prefix.
  - intros i Hin. destruct (Hi i Hin). split; by eapply elem_of_prefix.
Qed.

Lemma add_edges_extends n ins : ∀ G,
  extends G (foldl (λ G i, nx.add_edge i n G) G ins).
Proof.
  induction ins as [|i ins IH]; intros G; [done|].
  simpl. etrans; [apply add_edge_extends|apply IH].
Qed.

Lemma add_edges_elem n ins : ∀ G i,
  i ∈ ins →
  let G' := foldl (λ G i, nx.add_edge i n G) G ins in
  i ∈ nx.nodes G' ∧ n ∈ nx.nodes G' ∧ (i, n) ∈ nx.edges G'.
Proof.
  induction ins as [|j ins IH]; intros G i Hi; [by apply not_elem_of_nil in Hi|].
  simpl. apply elem_of_cons in Hi as [->|Hi]; [|by apply IH].
  destruct (add_edge_elem j n G) as (H1 & H2 & H3).
  destruct (add_edges_extends n ins (nx.add_edge j n G)) as [Hn He].
  repeat split; by eapply elem_of_prefix.
Qed.

Lemma add_edges_present n ins : ∀ G,
  n ∈ nx.nodes G →
  (∀ i, i ∈ ins → i ∈ nx.nodes G ∧ (i, n) ∈ nx.edges G) →
  foldl (λ G i, nx.add_edge i n G) G ins = G.
Proof.
  induction ins as [|j ins IH]; intros G Hn Hins; [done|].
  simpl. destruct (Hins j) as [Hj Hjn]; [left|].
  rewrite (add_edge_present j n G Hj Hn Hjn).
  apply IH; [done|]. intros i Hi. apply Hins. by right.
Qed.

Lemma apply_component_extends self c :
  extends (graph self) (graph (apply_component self c)).
Proof.
  destruct c as [[t n] ins]. rewrite apply_component_eq. simpl.
  etrans; [apply add_node_extends|apply add_edges_extends].
Qed.

Lemma apply_component_makes_present self c :
  present (graph (apply_component self c)) c.
Proof.
  destruct c as [[t n] ins]. rewrite apply_component_eq. simpl. split; simpl.
  - destruct (add_edges_extends n ins (nx.add_node n (graph self))) as [H _].
    eapply elem_of_prefix; [apply add_node_elem|exact H].
  - intros i Hi.
    destruct (add_edges_elem n ins (nx.add_node n (graph self)) i Hi)
      as (H1 & _ & H3). done.
Qed.

Lemma apply_component_present self c :
  present (graph self) c → graph (apply_component self c) = graph self.
Proof.
  destruct c as [[t n] ins]. intros [Hn Hins]. simpl in *.
  rewrite apply_component_eq. simpl.
  rewrite (add_node_present n _ Hn). by apply add_edges_present.
Qed.

Lemma apply_components_extends cs : ∀ self,
  extends (graph self) (graph (foldl apply_component self cs)).
Proof.
  induction cs as [|c cs IH]; intros self; [done|].
  simpl. etrans; [apply apply_component_extends|apply IH].
Qed.

Lemma apply_components_make_present cs : ∀ self c,
  c ∈ cs → present (graph (foldl apply_component self cs)) c.
Proof.
  induction cs as [|c' cs IH]; intros self c Hc; [by apply not_elem_of_nil in Hc|].
  simpl. apply elem_of_cons in Hc as [->|Hc]; [|by apply IH].
  eapply present_extends; [apply apply_components_extends|].
  apply apply_component_makes_present.
Qed.

Lemma apply_components_present cs : ∀ self,
  (∀ c, c ∈ cs → present (graph self) c) →
  graph (foldl apply_component self cs) = graph self.
Proof.
  induction cs as [|c cs IH]; intros self Hall; [done|].
  simpl. rewrite IH.
  - apply apply_component_present, Hall. left.
  - intros c' Hc'. rewrite apply_component_present by (apply Hall; left).
    apply Hall. by right.
Qed.

Lemma apply_components_wf cs : ∀ self,
  nx.wf (graph self) → nx.wf (graph (foldl apply_component self cs)).
Proof.
  induction cs as [|[[t n] ins] cs IH]; intros self HG; [done|].
  simpl. apply IH. by apply (add_component_wf t n ins self).
Qed.

(** Adding the same components again changes nothing. *)
Lemma apply_components_twice cs self :
  foldl apply_component (foldl apply_component self cs) cs
  = foldl apply_component self cs.
Proof.
  apply circuit_eq.
  - by rewrite !apply_components_delays.
  - apply apply_components_present. intros c Hc.
    by apply apply_components_make_present.
  - apply map_eq. intros n. rewrite !apply_components_types.
    by destruct (last_declared cs n).
Qed.

Lemma last_declared_snoc cs t n ins m :
  last_declared (cs ++ [(t, n, ins)]) m
  = if bool_decide (n = m) then Some t else last_declared cs m.
Proof. unfold last_declared. by rewrite foldl_snoc. Qed.

Lemma last_declared_skip cs1 cs2 n :
  (∀ c, c ∈ cs2 → c.1.2 ≠ n) →
  last_declared (cs1 ++ cs2) n = last_declared cs1 n.
Proof.
  induction cs2 as [|[[t n'] ins] cs2 IH] using rev_ind; intros Hno.
  - by rewrite app_nil_r.
  - rewrite app_assoc, last_declared_snoc.
    rewrite bool_decide_false by (apply (Hno (t, n', ins)); set_solver).
    apply IH. intros c Hc. apply Hno. set_solver.
Qed.

Lemma last_declared_none cs n :
  (∀ c, c ∈ cs → c.1.2 ≠ n) → last_declared cs n = None.
Proof. intros H. apply (last_declared_skip [] cs n H). Qed.

(** What [parse_circuit] does, in terms of the components read. *)
Lemma parse_circuit_run files filename self :
  parse_circuit files filename self
  = match files filename with
    | None =>
        (Returns None, self,
         [String.append "Error: File " (String.append filename " not found")])
    | Some lines =>
        let self' :=
          foldl apply_component self (read_lines lines None).1 in
        match (read_lines lines None).2 with
        | inr name => (Returns (Some (name, graph self')), self', [])
        | inl _ =>
            (Returns None, self',
             ["Error parsing circuit file: list index out of range"])
        end
    end.
Proof.
  unfold parse_circuit, mbind at 1.
  destruct (files filename) as [lines|]; [|done].
  rewrite parse_lines_read.
  pose proof (read_lines_no_file lines None) as Hnf.
  destruct (read_lines lines None) as [cs [[]|name]]; done.
Qed.

(** ** Facts on [visualize_circuit] *)

Lemma critical_edges_cons a b rest :
  critical_edges (a :: b :: rest) = (a, b) :: critical_edges (b :: rest).
Proof.
  unfold critical_edges. simpl. by rewrite Nat.sub_0_r.
Qed.

Lemma critical_edges_walk G w :
  walk G w ↔ ∀ u v, (u, v) ∈ critical_edges w → nx.edge G u v.
Proof.
  induction w as [|a [|b rest] IH].
  - split; [|done]. intros _ u v H. by apply not_elem_of_nil in H.
  - split; [|done]. intros _ u v H. by apply not_elem_of_nil in H.
  - rewrite critical_edges_cons. split.
    + intros [Hab Hw] u v [[= -> ->]|H]%elem_of_cons; [done|].
      by apply IH.
    + intros H. split; [apply H; left|].
      apply IH. intros u v Huv. apply H. by right.
Qed.

Lemma critical_edges_length w : length (critical_edges w) = length w - 1.
Proof.
  unfold critical_edges.
  rewrite length_zip_with, length_take, length_drop. lia.
Qed.

Lemma returned_path_walk self path total out :
  nx.wf (graph self) →
  find_critical_path self = (Returns (path, total), self, out) →
  walk (graph self) path ∧ NoDup path ∧
  ∀ x, x ∈ path → x ∈ nx.nodes (graph self).
Proof.
  intros HG Hrun.
  destruct (find_critical_path_cases self HG)
    as [[_ Hc]|[(_ & _ & Hc)|(Hac & topo & dist & pred & e & chain & t & Han)]].
  - rewrite Hc in Hrun. simplify_eq. split; [done|]. split; [constructor|].
    intros x Hx. by apply not_elem_of_nil in Hx.
  - rewrite Hc in Hrun. by simplify_eq.
  - pose proof (an_walk _ _ _ _ _ _ _ Han) as Hwalk.
    pose proof (an_output _ _ _ _ _ _ _ Han) as Hout.
    rewrite (an_result _ _ _ _ _ _ _ Han) in Hrun. simplify_eq.
    apply (elem_of_output_nodes self) in Hout as [He _].
    split; [done|]. split; [by apply (acyclic_walk_NoDup (graph self))|].
    apply walk_nodes; [done|done|]. intros x Hx.
    destruct chain as [|u chain].
    + rewrite reverse_singleton in Hx. by simplify_eq.
    + rewrite !reverse_cons in Hx.
      apply (f_equal length) in Hx. rewrite !length_app in Hx.
      simpl in Hx. lia.
Qed.

Lemma node_colors_red self path :
  filter (λ c, c = "red") (node_colors self path)
  = (λ _, "red") <$> filter (λ x, x ∈ path) (nx.nodes (graph self)).
Proof.
  unfold node_colors. induction (nx.nodes (graph self)) as [|x l IH]; [done|].
  rewrite fmap_cons, !filter_cons, IH.
  case_bool_decide; repeat case_decide; try done.
Qed.

(** ** Further properties of [find_critical_path] *)

(** X1.  When the loops of [find_critical_path] are over, no edge can be
    relaxed any more: for every edge [(u, v)] of an acyclic graph,
    [distances[u] + delay(u) > distances[v]] is false. *)
Theorem longest_paths_fixpoint self :
  nx.wf (graph self) → nx.acyclic (graph self) →
  ∃ topo_sort distances predecessors,
    nx.topological_sort (graph self) = Returns topo_sort ∧
    longest_paths self topo_sort = Returns (distances, predecessors) ∧
    ∀ u v, nx.edge (graph self) u v →
      ∃ du dv, distances !! u = Some du ∧ distances !! v = Some dv ∧
               (dv <? du + node_delay_of self u)%float = false.
Proof.
  intros HG Hacyclic.
  destruct (topological_sort_acyclic _ HG Hacyclic) as (topo & Htopo & Hord).
  destruct (longest_paths_settled self HG topo Hord)
    as (dist & pred & Hrun & _ & Hset).
  exists topo, dist, pred. split; [done|]. split; [done|].
  intros u v Huv. apply Hset.
  by apply (elem_of_edges_in_order _ HG topo Hord).
Qed.

Lemma longest_paths_fixpoint_witness :
  ∃ topo_sort distances predecessors,
    nx.topological_sort (graph Examples.two_outputs) = Returns topo_sort ∧
    longest_paths Examples.two_outputs topo_sort
      = Returns (distances, predecessors) ∧
    ∀ u v, nx.edge (graph Examples.two_outputs) u v →
      ∃ du dv, distances !! u = Some du ∧ distances !! v = Some dv ∧
               (dv <? du + node_delay_of Examples.two_outputs u)%float
               = false.
Proof.
  apply (longest_paths_fixpoint Examples.two_outputs).
  - wf_built.
  - acyclic_by_sort.
Defined.

(** X2.  The end node is a best OUTPUT node: no node of type OUTPUT has
    a distance greater than the returned total delay. *)
Theorem end_node_is_maximal self :
  nx.wf (graph self) → nx.acyclic (graph self) →
  (∃ o, o ∈ nx.nodes (graph self) ∧ is_type self "OUTPUT" o) →
  ∃ topo_sort distances predecessors path total,
    nx.topological_sort (graph self) = Returns topo_sort ∧
    longest_paths self topo_sort = Returns (distances, predecessors) ∧
    find_critical_path self = (Returns (path, total), self, []) ∧
    ∀ o, o ∈ nx.nodes (graph self) → is_type self "OUTPUT" o →
      ∃ d, distances !! o = Some d ∧ (total <? d)%float = false.
Proof.
  intros HG Hacyclic (o & Ho).
  destruct (find_critical_path_analysis self HG Hacyclic)
    as (topo & dist & pred & e & chain & total & Han).
  { intros Hnil. apply (elem_of_output_nodes self) in Ho.
    rewrite Hnil in Ho. by apply not_elem_of_nil in Ho. }
  destruct Han as [Htopo Hord Hpaths Hinv Hsel Hout Htotal Hbest Hchain
                   Hwalk Hres].
  exists topo, dist, pred, (reverse (e :: chain)), total.
  repeat (split; [done|]).
  destruct (select_end_node_upper self dist e) as (ve & Hve & Hup); [|done|].
  { intros v Hv. by apply (dp_dom _ _ _ _ Hinv). }
  simplify_eq. intros o' Ho' Ht'.
  destruct (dp_dom _ _ _ _ Hinv o' Ho') as [[d Hd] _].
  exists d. split; [done|]. apply (Hup o'); [|done].
  by apply elem_of_output_nodes.
Qed.

Lemma end_node_is_maximal_witness :
  ∃ topo_sort distances predecessors path total,
    nx.topological_sort (graph Examples.two_outputs) = Returns topo_sort ∧
    longest_paths Examples.two_outputs topo_sort
      = Returns (distances, predecessors) ∧
    find_critical_path Examples.two_outputs
      = (Returns (path, total), Examples.two_outputs, []) ∧
    ∀ o, o ∈ nx.nodes (graph Examples.two_outputs) →
         is_type Examples.two_outputs "OUTPUT" o →
      ∃ d, distances !! o = Some d ∧ (total <? d)%float = false.
Proof.
  apply (end_node_is_maximal Examples.two_outputs).
  - wf_built.
  - acyclic_by_sort.
  - exists "O1". split; [vm_compute; set_solver|reflexivity].
Defined.

(** X3.  Ties go to the first: with non-negative delays, every OUTPUT
    node that comes before the end node in the graph's node order has a
    distance strictly below the returned total delay. *)
Theorem end_node_is_first_maximal self :
  nx.wf (graph self) → nx.acyclic (graph self) → nonneg_delays self →
  (∃ o, o ∈ nx.nodes (graph self) ∧ is_type self "OUTPUT" o) →
  ∃ topo_sort distances predecessors end_node path total,
    nx.topological_sort (graph self) = Returns topo_sort ∧
    longest_paths self topo_sort = Returns (distances, predecessors) ∧
    find_critical_path self = (Returns (path, total), self, []) ∧
    last path = Some end_node ∧
    ∀ before after o,
      nx.nodes (graph self) = before ++ end_node :: after →
      o ∈ before → is_type self "OUTPUT" o →
      ∃ d, distances !! o = Some d ∧ (d <? total)%float = true.
Proof.
  intros HG Hacyclic Hd (o & Ho).
  destruct (find_critical_path_analysis self HG Hacyclic)
    as (topo & dist & pred & e & chain & total & Han).
  { intros Hnil. apply (elem_of_output_nodes self) in Ho.
    rewrite Hnil in Ho. by apply not_elem_of_nil in Ho. }
  destruct Han as [Htopo Hord Hpaths Hinv Hsel Hout Htotal Hbest Hchain
                   Hwalk Hres].
  exists topo, dist, pred, e, (reverse (e :: chain)), total.
  repeat (split; [done|]). split; [by rewrite last_reverse|].
  destruct (select_end_node_first self dist e)
    as (ve & pre & post & Hve & Hsplit & Hfirst); [| |done|].
  { intros v Hv. by apply (dp_dom _ _ _ _ Hinv). }
  { by apply (dp_inv_number self topo dist pred). }
  simplify_eq. intros before after o' Hnodes Ho' Ht'.
  assert (o' ∈ nx.nodes (graph self)) as Hin by (rewrite Hnodes; set_solver).
  destruct (dp_dom _ _ _ _ Hinv o' Hin) as [[d Hdo] _].
  exists d. split; [done|]. apply (Hfirst o'); [|done].
  (* the OUTPUT nodes before [e] are those of [before] *)
  pose proof HG as (Hnd & _). rewrite Hnodes in Hnd.
  apply NoDup_app in Hnd as (_ & Hnot & Hnd').
  apply NoDup_cons in Hnd' as [He_after _].
  unfold output_nodes in Hsplit. rewrite Hnodes in Hsplit.
  rewrite filter_app, filter_cons in Hsplit.
  apply (elem_of_output_nodes self) in Hout as [_ Hte].
  rewrite decide_True in Hsplit by done.
  assert (NoDup (pre ++ e :: post)) as Hnd2.
  { rewrite <-Hsplit. apply NoDup_app. split; [|split].
    - apply NoDup_filter. destruct HG as (Hn & _). rewrite Hnodes in Hn.
      by apply NoDup_app in Hn as (? & _).
    - intros x [_ Hx]%list_elem_of_filter [->|[_ Hx']%list_elem_of_filter]%elem_of_cons.
      + apply (Hnot e Hx). left.
      + apply (Hnot x Hx). by right.
    - apply NoDup_cons. split.
      + intros [_ ?]%list_elem_of_filter. done.
      + apply NoDup_filter. destruct HG as (Hn & _). rewrite Hnodes in Hn.
        apply NoDup_app in Hn as (_ & _ & Hn). by apply NoDup_cons in Hn as [_ ?]. }
  apply not_elem_of_app_cons_inv_l in Hsplit as (Hpre & _).
  - rewrite <-Hpre. by apply list_elem_of_filter.
  - apply NoDup_app in Hnd2 as (_ & Hn2 & _). intros Hx.
    apply (Hn2 e Hx). left.
  - intros [_ Hx]%list_elem_of_filter. apply (Hnot e Hx). left.
Qed.

Lemma end_node_is_first_maximal_witness :
  ∃ topo_sort distances predecessors end_node path total,
    nx.topological_sort (graph Samples.tied) = Returns topo_sort ∧
    longest_paths Samples.tied topo_sort
      = Returns (distances, predecessors) ∧
    find_critical_path Samples.tied
      = (Returns (path, total), Samples.tied, []) ∧
    last path = Some end_node ∧
    ∀ before after o,
      nx.nodes (graph Samples.tied) = before ++ end_node :: after →
      o ∈ before → is_type Samples.tied "OUTPUT" o →
      ∃ d, distances !! o = Some d ∧ (d <? total)%float = true.
Proof.
  apply (end_node_is_first_maximal Samples.tied).
  - wf_built.
  - acyclic_by_sort.
  - intros t d. apply default_delays_nonneg.
  - exists "O1". split; [vm_compute; set_solver|reflexivity].
Defined.

(** Of the two tied outputs the first declared one ends the path. *)
Example tied_critical_path :
  (find_critical_path Samples.tied).1.1
  = Returns (["I1"; "A1"; "O1"], 1%float).
Proof. vm_compute. reflexivity. Qed.

(** X4.  With non-negative delays the final distance of a node tells
    whether an INPUT node reaches it: it is a number [>= 0] when one does
    and [-inf] when none does. *)
Theorem distance_tells_reachability self :
  nx.wf (graph self) → nx.acyclic (graph self) → nonneg_delays self →
  ∃ topo_sort distances predecessors,
    nx.topological_sort (graph self) = Returns topo_sort ∧
    longest_paths self topo_sort = Returns (distances, predecessors) ∧
    ∀ v, v ∈ nx.nodes (graph self) →
      ∃ d, distances !! v = Some d ∧
           (reachable self v ↔ nonneg d) ∧
           (¬ reachable self v ↔ d = neg_infinity).
Proof.
  intros HG Hacyclic Hd.
  destruct (topological_sort_acyclic _ HG Hacyclic) as (topo & Htopo & Hord).
  destruct (longest_paths_inv self HG topo Hord)
    as (dist & pred & Hrun & Hinv).
  exists topo, dist, pred. split; [done|]. split; [done|].
  intros v Hv. destruct (dp_dom _ _ _ _ Hinv v Hv) as [[d Hdv] _].
  exists d. split; [done|].
  assert (reachable self v → nonneg d) as Hr.
  { intros Hreach.
    destruct (reachable_nonneg self HG topo dist pred v Hord Hinv Hd Hreach)
      as (d' & Hd' & Hnn). by simplify_eq. }
  destruct (dp_reach _ _ _ _ Hinv v d Hdv) as [->|Hreach].
  - assert (¬ nonneg neg_infinity) as Hno.
    { intros H. by apply Float.nonneg_not_neg_infinity in H. }
    split; split.
    + intros H%Hr. done.
    + intros H. done.
    + done.
    + intros _ H%Hr. done.
  - split; split.
    + done.
    + done.
    + intros H. done.
    + intros ->. apply Hr in Hreach.
      by apply Float.nonneg_not_neg_infinity in Hreach.
Qed.

Lemma distance_tells_reachability_witness :
  ∃ topo_sort distances predecessors,
    nx.topological_sort (graph Examples.two_outputs) = Returns topo_sort ∧
    longest_paths Examples.two_outputs topo_sort
      = Returns (distances, predecessors) ∧
    ∀ v, v ∈ nx.nodes (graph Examples.two_outputs) →
      ∃ d, distances !! v = Some d ∧
           (reachable Examples.two_outputs v ↔ nonneg d) ∧
           (¬ reachable Examples.two_outputs v ↔ d = neg_infinity).
Proof.
  apply (distance_tells_reachability Examples.two_outputs).
  - wf_built.
  - acyclic_by_sort.
  - intros t d. apply default_delays_nonneg.
Defined.

(** X5.  With non-negative delays, a returned path whose total is not
    [-inf] on an acyclic graph runs from a node of type INPUT to a node
    of type OUTPUT, has at least two nodes, and its total is a number
    [>= 0]. *)
Theorem critical_path_from_input_to_output self path total out :
  nx.wf (graph self) → nx.acyclic (graph self) → nonneg_delays self →
  find_critical_path self = (Returns (path, total), self, out) →
  total ≠ neg_infinity →
  ∃ first end_node,
    head path = Some first ∧ is_type self "INPUT" first ∧
    last path = Some end_node ∧ is_type self "OUTPUT" end_node ∧
    2 ≤ length path ∧ nonneg total.
Proof.
  intros HG Hacyclic Hd Hrun Hfin.
  destruct (find_critical_path_cases self HG)
    as [[Hc _]|[(_ & _ & Hc)|(_ & topo & dist & pred & e & chain & t & Han)]].
  - done.
  - rewrite Hc in Hrun. by simplify_eq.
  - destruct Han as [Htopo Hord Hpaths Hinv Hsel Hout Htotal Hbest Hchain
                     Hwalk Hres].
    rewrite Hres in Hrun. simplify_eq.
    destruct (dp_sign _ _ _ _ Hinv Hd e total Htotal) as [?|Hnn]; [done|].
    destruct (pred_chain_last pred chain e Hchain) as (first & Hlast & Hnone).
    apply (elem_of_output_nodes self) in Hout as [He Hte].
    assert (first ∈ e :: chain) as Hin.
    { apply last_Some in Hlast as (l' & ->). set_solver. }
    destruct (pred_chain_nonneg self topo dist pred Hinv Hd chain e total
                Hchain Htotal Hnn first Hin) as (df & Hdf & Hnf).
    rewrite (dp_init _ _ _ _ Hinv first Hnone) in Hdf.
    rewrite start_distances_lookup in Hdf.
    case_decide; [|done].
    case_decide as Hti; simplify_eq;
      try by apply Float.nonneg_not_neg_infinity in Hnf.
    exists first, e. rewrite head_reverse, last_reverse.
    repeat (split; [done|]). split; [|done].
    rewrite length_reverse. destruct chain as [|u chain]; [|simpl; lia].
    simpl in Hlast. simplify_eq. unfold is_type in *. congruence.
Qed.

Lemma critical_path_from_input_to_output_witness :
  ∃ first end_node,
    head ["I1"; "A1"; "O1"] = Some first ∧
    is_type Examples.two_outputs "INPUT" first ∧
    last ["I1"; "A1"; "O1"] = Some end_node ∧
    is_type Examples.two_outputs "OUTPUT" end_node ∧
    2 ≤ length ["I1"; "A1"; "O1"] ∧ nonneg 1%float.
Proof.
  apply (critical_path_from_input_to_output Examples.two_outputs _ _ []).
  - wf_built.
  - acyclic_by_sort.
  - intros t d. apply default_delays_nonneg.
  - apply find_critical_path_parts. vm_compute. done.
  - intros H. vm_compute in H. discriminate.
Defined.

(** X6.  Whatever the graph, a returned path visits no node twice, stays
    within the nodes of the graph, and is never longer than their
    number. *)
Theorem critical_path_is_simple self path total out :
  nx.wf (graph self) →
  find_critical_path self = (Returns (path, total), self, out) →
  NoDup path ∧ (∀ x, x ∈ path → x ∈ nx.nodes (graph self)) ∧
  length path ≤ length (nx.nodes (graph self)).
Proof.
  intros HG Hrun.
  destruct (find_critical_path_cases self HG)
    as [[_ Hc]|[(_ & _ & Hc)|(Hac & topo & dist & pred & e & chain & t & Han)]].
  - rewrite Hc in Hrun. simplify_eq. split; [constructor|].
    split; [|simpl; lia]. intros x Hx. by apply not_elem_of_nil in Hx.
  - rewrite Hc in Hrun. by simplify_eq.
  - pose proof (an_walk _ _ _ _ _ _ _ Han) as Hwalk.
    pose proof (an_output _ _ _ _ _ _ _ Han) as Hout.
    rewrite (an_result _ _ _ _ _ _ _ Han) in Hrun. simplify_eq.
    apply (elem_of_output_nodes self) in Hout as [He _].
    assert (∀ x, x ∈ reverse (e :: chain) → x ∈ nx.nodes (graph self))
      as Hin.
    { apply walk_nodes; [done|done|]. intros x Hx.
      destruct chain as [|u chain].
      - rewrite reverse_singleton in Hx. by simplify_eq.
      - rewrite !reverse_cons in Hx.
        apply (f_equal length) in Hx. rewrite !length_app in Hx.
        simpl in Hx. lia. }
    split; [by apply (acyclic_walk_NoDup (graph self))|]. split; [done|].
    by apply (acyclic_walk_length (graph self)).
Qed.

Lemma critical_path_is_simple_witness :
  NoDup ["I1"; "A1"; "O1"] ∧
  (∀ x, x ∈ ["I1"; "A1"; "O1"] → x ∈ nx.nodes (graph Examples.two_outputs)) ∧
  length ["I1"; "A1"; "O1"] ≤ length (nx.nodes (graph Examples.two_outputs)).
Proof.
  apply (critical_path_is_simple Examples.two_outputs _ 1%float []).
  - wf_built.
  - apply find_critical_path_parts. vm_compute. done.
Defined.

(** X7.  Along the returned path every node is the recorded predecessor
    of the next one, and the distance of the next one is the distance of
    the node plus the node's delay. *)
Theorem critical_path_is_tight self :
  nx.wf (graph self) → nx.acyclic (graph self) →
  (∃ o, o ∈ nx.nodes (graph self) ∧ is_type self "OUTPUT" o) →
  ∃ topo_sort distances predecessors path total,
    nx.topological_sort (graph self) = Returns topo_sort ∧
    longest_paths self topo_sort = Returns (distances, predecessors) ∧
    find_critical_path self = (Returns (path, total), self, []) ∧
    ∀ l1 u v l2, path = l1 ++ u :: v :: l2 →
      predecessors !! v = Some (Some u) ∧
      ∃ du, distances !! u = Some du ∧
            distances !! v = Some (du + node_delay_of self u)%float.
Proof.
  intros HG Hacyclic (o & Ho).
  destruct (find_critical_path_analysis self HG Hacyclic)
    as (topo & dist & pred & e & chain & total & Han).
  { intros Hnil. apply (elem_of_output_nodes self) in Ho.
    rewrite Hnil in Ho. by apply not_elem_of_nil in Ho. }
  destruct Han as [Htopo Hord Hpaths Hinv Hsel Hout Htotal Hbest Hchain
                   Hwalk Hres].
  exists topo, dist, pred, (reverse (e :: chain)), total.
  repeat (split; [done|]).
  intros l1 u v l2 Hsplit.
  assert (pred !! v = Some (Some u)) as Hp.
  { apply (pred_chain_link pred (reverse l2) e chain v u (reverse l1));
      [done|].
    apply (f_equal reverse) in Hsplit. rewrite reverse_involutive in Hsplit.
    rewrite Hsplit, reverse_app, !reverse_cons, <-!app_assoc. done. }
  split; [done|].
  destruct (dp_link _ _ _ _ Hinv v u Hp) as (_ & du & y & Hdu & Hdv & _).
  by exists du.
Qed.

Lemma critical_path_is_tight_witness :
  ∃ topo_sort distances predecessors path total,
    nx.topological_sort (graph Examples.chain) = Returns topo_sort ∧
    longest_paths Examples.chain topo_sort
      = Returns (distances, predecessors) ∧
    find_critical_path Examples.chain
      = (Returns (path, total), Examples.chain, []) ∧
    ∀ l1 u v l2, path = l1 ++ u :: v :: l2 →
      predecessors !! v = Some (Some u) ∧
      ∃ du, distances !! u = Some du ∧
            distances !! v = Some (du + node_delay_of Examples.chain u)%float.
Proof.
  apply (critical_path_is_tight Examples.chain).
  - wf_built.
  - acyclic_by_sort.
  - exists "O1". split; [vm_compute; set_solver|reflexivity].
Defined.

(** X8.  On every graph one of three cases holds and decides how the
    method ends: it prints the cycle error and returns [([], 0.0)]
    exactly when the graph has a cycle; it raises [ValueError] exactly
    when the graph is acyclic and has no OUTPUT node; otherwise it
    prints nothing and returns a non-empty path.  It never raises
    [KeyError], [NetworkXError] or [RuntimeError] and always
    terminates. *)
Theorem find_critical_path_outcomes self :
  nx.wf (graph self) →
  let has_output := ∃ o, o ∈ nx.nodes (graph self) ∧ is_type self "OUTPUT" o in
  (nx.cyclic (graph self) ↔
     find_critical_path self
     = (Returns ([], 0%float), self, ["Error: Circuit contains cycles"])) ∧
  (nx.acyclic (graph self) ∧ ¬ has_output ↔
     find_critical_path self = (Raises ValueError, self, [])) ∧
  (nx.acyclic (graph self) ∧ has_output ↔
     ∃ path total, path ≠ [] ∧
       find_critical_path self = (Returns (path, total), self, [])) ∧
  (nx.cyclic (graph self) ∨ (nx.acyclic (graph self) ∧ ¬ has_output)
   ∨ (nx.acyclic (graph self) ∧ has_output)).
Proof.
  intros HG has_output.
  assert (has_output ↔ output_nodes self ≠ []) as Hiff.
  { split.
    - intros (o & Ho) Hnil. apply (elem_of_output_nodes self) in Ho.
      rewrite Hnil in Ho. by apply not_elem_of_nil in Ho.
    - intros Hne. destruct (output_nodes self) as [|o os] eqn:E; [done|].
      exists o. apply elem_of_output_nodes. rewrite E. left. }
  destruct (find_critical_path_cases self HG)
    as [[Hcyc Hc]|[(Hac & Hout & Hc)
       |(Hac & topo & dist & pred & e & chain & t & Han)]].
  - rewrite Hc. split; [done|]. split; [|split; [|by left]]; split.
    + intros [Hac _]. by destruct Hac.
    + intros [=].
    + intros [Hac _]. by destruct Hac.
    + intros (path & total & Hne & [=]).
  - assert (¬ has_output) as Hno by (rewrite Hiff; by intros H).
    rewrite Hc. split; [|split; [|split; [|by right; left]]]; split.
    + intros Hcyc. by destruct Hac.
    + intros [=].
    + done.
    + done.
    + intros [_ H%Hiff]. done.
    + intros (path & total & _ & [=]).
  - pose proof (an_output _ _ _ _ _ _ _ Han) as Hout.
    assert (has_output) as Hhas.
    { apply Hiff. intros E. rewrite E in Hout.
      by apply not_elem_of_nil in Hout. }
    rewrite (an_result _ _ _ _ _ _ _ Han).
    split; [|split; [|split; [|by right; right]]]; split.
    + intros Hcyc. by destruct Hac.
    + intros [=].
    + intros [_ Hno]. done.
    + intros [=].
    + intros _. eexists _, _. split; [|done].
      rewrite reverse_cons. by destruct (reverse chain).
    + done.
Qed.

Lemma find_critical_path_outcomes_witness :
  let has_output := ∃ o, o ∈ nx.nodes (graph Examples.loop) ∧
                         is_type Examples.loop "OUTPUT" o in
  (nx.cyclic (graph Examples.loop) ↔
     find_critical_path Examples.loop
     = (Returns ([], 0%float), Examples.loop,
        ["Error: Circuit contains cycles"])) ∧
  (nx.acyclic (graph Examples.loop) ∧ ¬ has_output ↔
     find_critical_path Examples.loop
     = (Raises ValueError, Examples.loop, [])) ∧
  (nx.acyclic (graph Examples.loop) ∧ has_output ↔
     ∃ path total, path ≠ [] ∧
       find_critical_path Examples.loop
       = (Returns (path, total), Examples.loop, [])) ∧
  (nx.cyclic (graph Examples.loop)
   ∨ (nx.acyclic (graph Examples.loop) ∧ ¬ has_output)
   ∨ (nx.acyclic (graph Examples.loop) ∧ has_output)).
Proof.
  apply (find_critical_path_outcomes Examples.loop). wf_built.
Defined.

(** X9.  With non-negative delays [calculate_path_delay] returns a
    number [>= 0] (never [NaN], never negative) for every list of node
    ids, registered or not, and changes nothing. *)
Theorem calculate_path_delay_nonneg self path :
  nonneg_delays self →
  ∃ d, calculate_path_delay path self = (Returns d, self, []) ∧ nonneg d.
Proof.
  intros Hd. exists (sum_delays self path 0%float). split; [done|].
  unfold sum_delays.
  assert (nonneg 0%float) as H0 by reflexivity. revert H0.
  generalize 0%float. induction path as [|n path IH]; intros t Ht; [done|].
  simpl. apply IH. apply Float.add_nonneg; [done|].
  by apply node_delay_nonneg.
Qed.

Lemma calculate_path_delay_nonneg_witness :
  ∃ d, calculate_path_delay ["O1"; "nowhere"; "A1"; "A1"] Examples.chain
       = (Returns d, Examples.chain, []) ∧ nonneg d.
Proof.
  apply (calculate_path_delay_nonneg Examples.chain).
  intros t d. apply default_delays_nonneg.
Defined.

(** ** Properties of [parse_circuit] *)


(** X11.  [parse_circuit] only appends to the graph: whatever the file
    and the outcome, the nodes and the edges that the circuit had are
    still there, in the same order and before the new ones.  Nothing is
    reset between two files. *)
Theorem parse_circuit_only_appends files filename self :
  let self' := (parse_circuit files filename self).1.2 in
  nx.nodes (graph self) `prefix_of` nx.nodes (graph self') ∧
  nx.edges (graph self) `prefix_of` nx.edges (graph self').
Proof.
  simpl. rewrite parse_circuit_run.
  destruct (files filename) as [lines|]; [|done].
  simpl. destruct ((read_lines lines None).2); simpl;
    apply apply_components_extends.
Qed.

(** X12.  Blank lines and lines that start with [#] add nothing: a file
    made of such lines leaves the circuit as it was, whether or not a
    name is read from them. *)
Theorem parse_circuit_skips_comments files filename lines self :
  files filename = Some lines →
  (∀ line, line ∈ lines →
     py.strip line = EmptyString ∨ py.startswith "#" (py.strip line) = true) →
  (parse_circuit files filename self).1.2 = self.
Proof.
  intros Hfile Hskip. rewrite parse_circuit_run, Hfile. simpl.
  assert ((read_lines lines None).1 = []) as ->.
  { apply elem_of_nil_inv. intros c Hc.
    apply read_lines_components in Hc as (line & Hline & Hc).
    unfold component_of, read_line in Hc. cbv zeta in Hc.
    destruct (Hskip line Hline) as [Hs|Hs].
    - rewrite Hs in Hc. simpl in Hc. done.
    - rewrite Hs, orb_true_r in Hc.
      destruct (_ && _); [|done]. by destruct (py.split_on _ _ !! 1). }
  by destruct ((read_lines lines None).2).
Qed.

Lemma parse_circuit_skips_comments_witness :
  (parse_circuit
     (λ name, if bool_decide (name = "notes.txt")
              then Some ["# Circuit name: none
"; "
"; "   # nothing here"] else None)
     "notes.txt" Examples.chain).1.2 = Examples.chain.
Proof.
  eapply parse_circuit_skips_comments; [reflexivity|].
  intros line Hline. repeat (apply elem_of_cons in Hline as [->|Hline]);
    [right; reflexivity|left; reflexivity|right; reflexivity|].
  by apply not_elem_of_nil in Hline.
Defined.

(** X13.  The last declaration wins: after a parse that reaches the end
    of the file, [identify_node_type] gives for an id the type written on
    the last component line that declares it; an earlier type of the id,
    from the file or from before, is overwritten without any error. *)
Theorem parse_circuit_last_declaration_wins
    files filename before line after t n inputs self res self' out :
  files filename = Some (before ++ line :: after) →
  component_of line = Some (t, n, inputs) →
  (∀ l c, l ∈ after → component_of l = Some c → c.1.2 ≠ n) →
  parse_circuit files filename self = (Returns (Some res), self', out) →
  identify_node_type n self' = (Returns t, self', []).
Proof.
  intros Hfile Hline Hafter. rewrite parse_circuit_run, Hfile. simpl.
  destruct ((read_lines _ None).2) as [e|name] eqn:Hok; [done|].
  intros [= _ <- _].
  unfold identify_node_type, mbind, gets, mret, identify_node_type_of. simpl.
  rewrite apply_components_types.
  rewrite (read_lines_complete _ None name Hok).
  rewrite omap_app. simpl. rewrite Hline, cons_middle, app_assoc.
  rewrite last_declared_skip by
    (intros c (l & Hc & Hl)%list_elem_of_omap; by apply (Hafter l)).
  rewrite last_declared_snoc, bool_decide_true by done. done.
Qed.

Lemma parse_circuit_last_declaration_wins_witness :
  let files name :=
    if bool_decide (name = "twice.txt")
    then Some ["INPUT X
"; "ADD X
"; "OUTPUT Y X
"] else None in
  let self' := (parse_circuit files "twice.txt" init).1.2 in
  identify_node_type "X" self' = (Returns "ADD", self', []).
Proof.
  intros files self'.
  eapply (parse_circuit_last_declaration_wins files "twice.txt"
            ["INPUT X
"] "ADD X
" ["OUTPUT Y X
"] "ADD" "X" [] init (None, graph self') self' []).
  - reflexivity.
  - reflexivity.
  - intros l c Hl. apply list_elem_of_singleton in Hl as ->.
    vm_compute. by intros [= <-].
  - vm_compute. reflexivity.
Defined.

(** X14.  No edge is left dangling: after a parse that reaches the end
    of the file, every id listed as an input on a component line is a
    node of the graph, with an edge to the declared node; and when no
    line declares it and it had no type before, its type is
    ["UNKNOWN"]. *)
Theorem parse_circuit_registers_inputs
    files filename lines line t n inputs i self res self' out :
  files filename = Some lines →
  line ∈ lines → component_of line = Some (t, n, inputs) → i ∈ inputs →
  parse_circuit files filename self = (Returns (Some res), self', out) →
  i ∈ nx.nodes (graph self') ∧ n ∈ nx.nodes (graph self') ∧
  nx.edge (graph self') i n ∧
  ((∀ l c, l ∈ lines → component_of l = Some c → c.1.2 ≠ i) →
   node_types self !! i = None →
   identify_node_type i self' = (Returns "UNKNOWN", self', [])).
Proof.
  intros Hfile Hline Hc Hi. rewrite parse_circuit_run, Hfile. simpl.
  destruct ((read_lines _ None).2) as [e|name] eqn:Hok; [done|].
  intros [= _ <- _].
  rewrite (read_lines_complete _ None name Hok).
  assert ((t, n, inputs) ∈ omap component_of lines) as Hin.
  { apply list_elem_of_omap. by exists line. }
  destruct (apply_components_make_present _ self _ Hin) as [Hn Hins].
  destruct (Hins i Hi) as [Hi' He]. simpl in *.
  repeat (split; [done|]).
  intros Hundeclared Hnone.
  unfold identify_node_type, mbind, gets, mret, identify_node_type_of. simpl.
  rewrite apply_components_types.
  rewrite last_declared_none by
    (intros c (l & Hl & Hcl)%list_elem_of_omap; by apply (Hundeclared l)).
  by rewrite Hnone.
Qed.

Lemma parse_circuit_registers_inputs_witness :
  let files name :=
    if bool_decide (name = "adder.txt")
    then Some ["ADD S a b
"; "OUTPUT O S
"] else None in
  let self' := (parse_circuit files "adder.txt" init).1.2 in
  "b" ∈ nx.nodes (graph self') ∧ "S" ∈ nx.nodes (graph self') ∧
  nx.edge (graph self') "b" "S" ∧
  ((∀ l c, l ∈ ["ADD S a b
"; "OUTPUT O S
"] → component_of l = Some c → c.1.2 ≠ "b") →
   node_types init !! "b" = None →
   identify_node_type "b" self' = (Returns "UNKNOWN", self', [])).
Proof.
  intros files self'.
  eapply (parse_circuit_registers_inputs files "adder.txt" _ "ADD S a b
" "ADD" "S" ["a"; "b"] "b" init (None, graph self') self' []).
  - reflexivity.
  - left.
  - reflexivity.
  - set_solver.
  - vm_compute. reflexivity.
Defined.

(** X15.  A parse is not undone when it fails: if the lines before a
    component line that has a type and no id are read without error,
    [parse_circuit] prints the [IndexError] line and returns [None], the
    circuit keeps all that those lines added, and the lines after are not
    read. *)
Theorem parse_circuit_error_keeps_prefix
    files filename before bad after name self :
  files filename = Some (before ++ bad :: after) →
  (parse_lines before None self).1.1 = Returns (inr name) →
  py.strip bad ≠ EmptyString → py.startswith "#" (py.strip bad) = false →
  length (py.split (py.strip bad)) < 2 →
  parse_circuit files filename self
  = (Returns None, (parse_lines before None self).1.2,
     ["Error parsing circuit file: list index out of range"]).
Proof.
  intros Hfile Hok Hne Hhash Hlen.
  rewrite parse_lines_read in Hok |- *. simpl in Hok. injection Hok as Hok.
  rewrite parse_circuit_run, Hfile. simpl.
  rewrite (read_lines_app before (bad :: after) None name Hok).
  assert (read_line bad name = (None, inl IndexError)) as Hbad.
  { unfold read_line. rewrite bool_decide_false, Hhash by done. simpl.
    destruct (py.split _) as [|? [|? ?]]; simpl in Hlen; [done|done|lia]. }
  cbn [read_lines]. rewrite Hbad. simpl. by rewrite app_nil_r.
Qed.

Lemma parse_circuit_error_keeps_prefix_witness :
  parse_circuit Files.disk "broken.txt" init
  = (Returns None, (parse_lines ["INPUT I1
"; "ADD A1 I1
"] None init).1.2,
     ["Error parsing circuit file: list index out of range"]).
Proof.
  apply (parse_circuit_error_keeps_prefix Files.disk "broken.txt"
           ["INPUT I1
"; "ADD A1 I1
"] "OUTPUT
" ["OUTPUT O1 A1
"] None init).
  - reflexivity.
  - reflexivity.
  - by vm_compute.
  - reflexivity.
  - vm_compute. lia.
Defined.

(** X16.  Parsing the same file again changes nothing: the second call
    gives the same answer, prints the same and leaves the circuit that
    the first call left. *)
Theorem parse_circuit_twice files filename self :
  parse_circuit files filename (parse_circuit files filename self).1.2
  = parse_circuit files filename self.
Proof.
  rewrite !parse_circuit_run.
  destruct (files filename) as [lines|]; [|done]. simpl.
  destruct ((read_lines lines None).2); simpl;
    by rewrite apply_components_twice.
Qed.

(** X17.  [parse_circuit] keeps the graph well formed (each node once,
    each edge once, both ends of every edge among the nodes); so on a
    circuit that was only ever built by parsing, [find_critical_path]
    returns a result or raises [ValueError], and nothing else. *)
Theorem parse_then_find files filename self :
  nx.wf (graph self) →
  let self' := (parse_circuit files filename self).1.2 in
  nx.wf (graph self') ∧
  ((∃ result, (find_critical_path self').1.1 = Returns result) ∨
   (find_critical_path self').1.1 = Raises ValueError).
Proof.
  intros HG self'.
  assert (nx.wf (graph self')) as HG'.
  { unfold self'. rewrite parse_circuit_run.
    destruct (files filename) as [lines|]; [|done]. simpl.
    destruct ((read_lines lines None).2); simpl;
      by apply apply_components_wf. }
  split; [done|].
  destruct (find_critical_path_cases self' HG')
    as [[_ Hc]|[(_ & _ & Hc)|(_ & topo & dist & pred & e & chain & t & Han)]].
  - rewrite Hc. left. by eexists.
  - rewrite Hc. by right.
  - rewrite (an_result _ _ _ _ _ _ _ Han). left. by eexists.
Qed.

Lemma parse_then_find_witness :
  let self' := (parse_circuit Files.disk "chain.txt" init).1.2 in
  nx.wf (graph self') ∧
  ((∃ result, (find_critical_path self').1.1 = Returns result) ∨
   (find_critical_path self').1.1 = Raises ValueError).
Proof.
  apply (parse_then_find Files.disk "chain.txt" init). apply wf_empty.
Defined.

(** The file of the chain gives the circuit of the examples, and its
    name. *)
Example chain_file_parsed :
  (parse_circuit Files.disk "chain.txt" init).1.1
    = Returns (Some (Some "chain", graph Examples.chain)) ∧
  graph (parse_circuit Files.disk "chain.txt" init).1.2
    = graph Examples.chain ∧
  (find_critical_path (parse_circuit Files.disk "chain.txt" init).1.2).1.1
    = Returns (["I1"; "A1"; "A2"; "O1"], 2%float).
Proof. repeat split; vm_compute; reflexivity. Qed.

(** ** Properties of [visualize_circuit] *)

(** X18.  The edges that [visualize_circuit] draws in red for a path
    returned by [find_critical_path] are edges of the graph, no edge
    twice, and one less than the path has nodes (none for the empty path
    of a cyclic graph). *)
Theorem visualize_critical_edges self path total out :
  nx.wf (graph self) →
  find_critical_path self = (Returns (path, total), self, out) →
  (∀ u v, (u, v) ∈ critical_edges path → (u, v) ∈ nx.edges (graph self)) ∧
  NoDup (critical_edges path) ∧
  length (critical_edges path) = length path - 1.
Proof.
  intros HG Hrun.
  destruct (returned_path_walk self path total out HG Hrun)
    as (Hwalk & Hnd & _).
  split; [by apply critical_edges_walk|]. split; [|apply critical_edges_length].
  unfold critical_edges. apply (NoDup_fmap_1 fst).
  rewrite fst_zip by (rewrite length_take, length_drop; lia).
  eapply sublist_NoDup; [done|apply sublist_take].
Qed.

Lemma visualize_critical_edges_witness :
  (∀ u v, (u, v) ∈ critical_edges ["I1"; "A1"; "O1"] →
          (u, v) ∈ nx.edges (graph Examples.two_outputs)) ∧
  NoDup (critical_edges ["I1"; "A1"; "O1"]) ∧
  length (critical_edges ["I1"; "A1"; "O1"]) = length ["I1"; "A1"; "O1"] - 1.
Proof.
  apply (visualize_critical_edges Examples.two_outputs _ 1%float []).
  - wf_built.
  - apply find_critical_path_parts. vm_compute. done.
Defined.

(** X19.  [visualize_circuit] colours one entry per node of the graph, and
    for a path returned by [find_critical_path] exactly as many entries
    are red as the path has nodes. *)
Theorem visualize_node_colors self path total out :
  nx.wf (graph self) →
  find_critical_path self = (Returns (path, total), self, out) →
  length (node_colors self path) = length (nx.nodes (graph self)) ∧
  length (filter (λ c, c = "red") (node_colors self path)) = length path.
Proof.
  intros HG Hrun.
  destruct (returned_path_walk self path total out HG Hrun)
    as (_ & Hnd & Hin).
  split; [unfold node_colors; by rewrite length_fmap|].
  rewrite node_colors_red, length_fmap.
  apply Permutation_length, NoDup_Permutation; [|done|].
  - apply NoDup_filter. by destruct HG.
  - intros x. rewrite list_elem_of_filter. naive_solver.
Qed.

Lemma visualize_node_colors_witness :
  length (node_colors Examples.two_outputs ["I1"; "A1"; "O1"])
  = length (nx.nodes (graph Examples.two_outputs)) ∧
  length (filter (λ c, c = "red")
            (node_colors Examples.two_outputs ["I1"; "A1"; "O1"]))
  = length ["I1"; "A1"; "O1"].
Proof.
  apply (visualize_node_colors Examples.two_outputs _ 1%float []).
  - wf_built.
  - apply find_critical_path_parts. vm_compute. done.
Defined.
